(** * The serial monitor of [scripts/monitor.py]: a shallow embedding

    Definitions come first, in the order of the Python source:
    - [Py]      : the Python values and built-ins the monitor relies on
                  ([str] as a list of code points, [str.split], [str.rstrip],
                  [bytes.decode('utf-8', errors=...)], [queue.Queue]);
    - [Re]      : the fragment of Python's [re] needed for the filter
                  ([Pattern.search] against [match] and [fullmatch]);
    - [Monitor] : [ESPMonitor] with [should_display], [format_line], the
                  read/assemble loop of [monitor], and [main];
    - [Threads] : the read loop and [log_writer] as two interleaved threads
                  sharing [running], the queue and the log file;
    - [Link]    : [connect], [disconnect], [send_command] and the
                  [--command] branch of [main], with [str.encode];
    - [Dev]     : [run_command], [full_deploy] and [main] of [scripts/dev.py];
    - [Ota]     : [create_update_log] of [scripts/ota_update.py].
    Facts about the built-ins and the properties of the scripts follow. *)

From Stdlib Require Import Strings.String Strings.Ascii Strings.Byte.
From Stdlib Require Import NArith ZArith Lia Bool Arith List.
From Equations Require Import Equations.
Import ListNotations.

(* ===================================================================== *)
(** * Python values and built-ins *)
(* ===================================================================== *)
Module Py.

(** A Python [str] is a sequence of Unicode code points. *)
Definition codepoint := N.
Definition text := list codepoint.

(** ASCII literals, for writing examples. *)
Definition str (s : string) : text :=
  map N_of_ascii (list_ascii_of_string s).

Definition LF : codepoint := 10%N.
Definition CR : codepoint := 13%N.
(** U+FFFD, the replacement character emitted by the ['replace'] handler. *)
Definition REPLACEMENT : codepoint := 65533%N.

(** Exceptions that matter to the monitor. *)
Inductive exn : Type :=
| UnicodeDecodeError
| KeyboardInterrupt
| SerialException
| re_error.

(** The result of evaluating an expression that may raise. *)
Inductive outcome (A : Type) : Type :=
| Ok (a : A)
| Raise (e : exn).
Arguments Ok {A} a.
Arguments Raise {A} e.

(** ** [bytes.decode('utf-8', errors)]

    The decoder follows CPython's UTF-8 decoder: an error spans the maximal
    prefix of the ill-formed sequence (one to three bytes, or everything up
    to the end of the data for a truncated sequence); the handler either
    raises ([strict]) or emits one U+FFFD and resumes after the span
    ([replace]). *)
Inductive errors_mode : Type := strict | replace.

Definition is_continuation (ch : N) : bool :=
  (128 <=? ch)%N && (ch <? 192)%N.

Definition emit (c : codepoint) (k : outcome text) : outcome text :=
  match k with
  | Ok t => Ok (c :: t)
  | Raise e => Raise e
  end.

(** What the error handler does with the decoding of the bytes that follow
    the ill-formed span. *)
Definition decode_error (errors : errors_mode) (k : outcome text) : outcome text :=
  match errors with
  | strict => Raise UnicodeDecodeError
  | replace => emit REPLACEMENT k
  end.

Definition cp2 (ch ch2 : N) : codepoint :=
  N.lor (N.shiftl (N.land ch 31) 6) (N.land ch2 63).
Definition cp3 (ch ch2 ch3 : N) : codepoint :=
  N.lor (N.shiftl (N.land ch 15) 12)
        (N.lor (N.shiftl (N.land ch2 63) 6) (N.land ch3 63)).
Definition cp4 (ch ch2 ch3 ch4 : N) : codepoint :=
  N.lor (N.shiftl (N.land ch 7) 18)
        (N.lor (N.shiftl (N.land ch2 63) 12)
               (N.lor (N.shiftl (N.land ch3 63) 6) (N.land ch4 63))).

(** Second byte of a three-byte sequence: E0 needs A0..BF (no overlong
    form), ED needs 80..9F (no surrogate). *)
Definition bad_second3 (ch ch2 : N) : bool :=
  negb (is_continuation ch2)
  || (if (ch2 <? 160)%N then (ch =? 224)%N else (ch =? 237)%N).

(** Second byte of a four-byte sequence: F0 needs 90..BF (no overlong
    form), F4 needs 80..8F (at most U+10FFFF). *)
Definition bad_second4 (ch ch2 : N) : bool :=
  negb (is_continuation ch2)
  || (if (ch2 <? 144)%N then (ch =? 240)%N else (ch =? 244)%N).

Fixpoint utf8_decode (errors : errors_mode) (s : list byte) : outcome text :=
  match s with
  | [] => Ok []
  | b :: s1 =>
    let ch := Byte.to_N b in
    if (ch <? 128)%N then emit ch (utf8_decode errors s1)
    else if (ch <? 194)%N then
      (* invalid start byte: a continuation byte or C0/C1 *)
      decode_error errors (utf8_decode errors s1)
    else if (ch <? 224)%N then
      match s1 with
      | [] => decode_error errors (Ok [])          (* unexpected end of data *)
      | b2 :: s2 =>
        let ch2 := Byte.to_N b2 in
        if negb (is_continuation ch2)
        then decode_error errors (utf8_decode errors s1)
        else emit (cp2 ch ch2) (utf8_decode errors s2)
      end
    else if (ch <? 240)%N then
      match s1 with
      | [] => decode_error errors (Ok [])
      | b2 :: s2 =>
        let ch2 := Byte.to_N b2 in
        if bad_second3 ch ch2
        then decode_error errors (utf8_decode errors s1)
        else
          match s2 with
          | [] => decode_error errors (Ok [])
          | b3 :: s3 =>
            let ch3 := Byte.to_N b3 in
            if negb (is_continuation ch3)
            then decode_error errors (utf8_decode errors s2)
            else emit (cp3 ch ch2 ch3) (utf8_decode errors s3)
          end
      end
    else if (ch <? 245)%N then
      match s1 with
      | [] => decode_error errors (Ok [])
      | b2 :: s2 =>
        let ch2 := Byte.to_N b2 in
        if bad_second4 ch ch2
        then decode_error errors (utf8_decode errors s1)
        else
          match s2 with
          | [] => decode_error errors (Ok [])
          | b3 :: s3 =>
            let ch3 := Byte.to_N b3 in
            if negb (is_continuation ch3)
            then decode_error errors (utf8_decode errors s2)
            else
              match s3 with
              | [] => decode_error errors (Ok [])
              | b4 :: s4 =>
                let ch4 := Byte.to_N b4 in
                if negb (is_continuation ch4)
                then decode_error errors (utf8_decode errors s3)
                else emit (cp4 ch ch2 ch3 ch4) (utf8_decode errors s4)
              end
          end
      end
    else
      (* F5..FF never start a sequence *)
      decode_error errors (utf8_decode errors s1)
  end.

(** [data.decode('utf-8', errors=errors)] *)
Definition bytes_decode (errors : errors_mode) (data : list byte) : outcome text :=
  utf8_decode errors data.

(** ASCII bytes of a literal, for writing examples. *)
Definition bytes_of (s : string) : list byte :=
  map byte_of_ascii (list_ascii_of_string s).

(** ** [str] methods used by the read loop *)

(** ['\n' in buffer] *)
Definition contains (c : codepoint) (s : text) : bool :=
  existsb (N.eqb c) s.

(** [buffer.split(sep, 1)]: the text before the first [sep] and the text
    after it, or a single piece when [sep] does not occur. *)
Fixpoint split1 (sep : codepoint) (s : text) : text * option text :=
  match s with
  | [] => ([], None)
  | c :: rest =>
    if (c =? sep)%N then ([], Some rest)
    else let (line, tail) := split1 sep rest in (c :: line, tail)
  end.

(** [line.rstrip(c)]: every trailing occurrence of [c] is removed. *)
Fixpoint rstrip (c : codepoint) (s : text) : text :=
  match s with
  | [] => []
  | x :: rest =>
    match rstrip c rest with
    | [] => if (x =? c)%N then [] else [x]
    | t => x :: t
    end
  end.

(** Truthiness of a [str]: the empty string is false. *)
Definition truthy (s : text) : bool :=
  match s with [] => false | _ :: _ => true end.

(** [s[:-3]] *)
Definition drop_last3 (s : text) : text :=
  firstn (length s - 3) s.

(** ** [queue.Queue(maxsize)]

    [maxsize <= 0] means the queue is unbounded.  [put] with the default
    [block=True] waits while the queue is full; [None] stands for a
    producer that has to wait. *)
Record Queue : Type := mkQueue { maxsize : Z; items : list text }.

Definition Queue_new (maxsize : Z) : Queue := mkQueue maxsize [].

Definition full (q : Queue) : bool :=
  (0 <? maxsize q)%Z && (maxsize q <=? Z.of_nat (length (items q)))%Z.

Definition put (q : Queue) (item : text) : option Queue :=
  if full q then None
  else Some (mkQueue (maxsize q) (items q ++ [item])).

(** [get(timeout=...)]: the oldest item, or [None] for [queue.Empty]. *)
Definition get (q : Queue) : option (text * Queue) :=
  match items q with
  | [] => None
  | x :: rest => Some (x, mkQueue (maxsize q) rest)
  end.

End Py.
Import Py.

(* ===================================================================== *)
(** * The fragment of Python's [re] used by the filter *)
(* ===================================================================== *)
Module Re.

(** A compiled pattern.  [Void] only arises from derivatives. *)
Inductive pattern : Type :=
| Void
| Eps
| Chr (c : codepoint)
| Dot
| Cat (p q : pattern)
| Alt (p q : pattern)
| Star (p : pattern).

(** [Matches p s]: the whole of [s] is matched by [p].  ['.'] matches any
    character except a newline. *)
Inductive Matches : pattern -> text -> Prop :=
| MEps : Matches Eps []
| MChr c : Matches (Chr c) [c]
| MDot c : c <> LF -> Matches Dot [c]
| MCat p q s1 s2 : Matches p s1 -> Matches q s2 -> Matches (Cat p q) (s1 ++ s2)
| MAltL p q s : Matches p s -> Matches (Alt p q) s
| MAltR p q s : Matches q s -> Matches (Alt p q) s
| MStar0 p : Matches (Star p) []
| MStarS p s1 s2 : Matches p s1 -> Matches (Star p) s2 -> Matches (Star p) (s1 ++ s2).

Fixpoint nullable (p : pattern) : bool :=
  match p with
  | Void | Chr _ | Dot => false
  | Eps | Star _ => true
  | Cat p q => nullable p && nullable q
  | Alt p q => nullable p || nullable q
  end.

Fixpoint deriv (c : codepoint) (p : pattern) : pattern :=
  match p with
  | Void | Eps => Void
  | Chr d => if (c =? d)%N then Eps else Void
  | Dot => if (c =? LF)%N then Void else Eps
  | Cat p q =>
    if nullable p then Alt (Cat (deriv c p) q) (deriv c q)
    else Cat (deriv c p) q
  | Alt p q => Alt (deriv c p) (deriv c q)
  | Star p => Cat (deriv c p) (Star p)
  end.

(** [Pattern.fullmatch(s)] as a truth value: the whole string matches. *)
Fixpoint fullmatch (p : pattern) (s : text) : bool :=
  match s with
  | [] => nullable p
  | c :: t => fullmatch (deriv c p) t
  end.

(** [Pattern.match(s)] as a truth value: some prefix of [s] matches. *)
Fixpoint match_ (p : pattern) (s : text) : bool :=
  nullable p ||
  match s with
  | [] => false
  | c :: t => match_ (deriv c p) t
  end.

(** [Pattern.search(s)] as a truth value: a match starts at some position. *)
Fixpoint search (p : pattern) (s : text) : bool :=
  match_ p s ||
  match s with
  | [] => false
  | _ :: t => search p t
  end.

(** The compiled form of a pattern without metacharacters: every character
    stands for itself. *)
Definition literal (s : text) : pattern :=
  fold_right (fun c p => Cat (Chr c) p) Eps s.

End Re.

(* ===================================================================== *)
(** * [ESPMonitor] *)
(* ===================================================================== *)
Module Monitor.
Import Re.

Record ESPMonitor : Type := mkESPMonitor {
  port : text;
  baudrate : Z;
  log_file : option text;
  filter_pattern : option pattern;
  running : bool;
  log_queue : Queue
}.

(** Truthiness of an optional [str]: [None] and [""] are both false. *)
Definition given (a : option text) : bool :=
  match a with
  | Some s => truthy s
  | None => false
  end.

(** [ESPMonitor.__init__]; [re_compile] is [re.compile], which raises
    [re.error] on an invalid pattern. *)
Definition __init__ (re_compile : text -> outcome pattern)
    (port : text) (baudrate : Z) (log_file filter_pattern : option text)
  : outcome ESPMonitor :=
  let compiled :=
    match filter_pattern with
    | Some p =>
      if truthy p then
        match re_compile p with
        | Ok r => Ok (Some r)
        | Raise e => Raise e
        end
      else Ok None
    | None => Ok None
    end in
  match compiled with
  | Ok f => Ok (mkESPMonitor port baudrate log_file f false (Queue_new 0))
  | Raise e => Raise e
  end.

(** What the read loop does to the outside: a line printed on the console,
    an entry handed to [log_queue.put]. *)
Inductive effect : Type :=
| Print (s : text)
| QueuePut (s : text).

(** The local state of [monitor]: the pending [buffer], how many times the
    wall clock has been read, and the effects performed so far, oldest
    first. *)
Record loop_state : Type := mkLoop {
  buffer : text;
  clock : nat;
  effects : list effect
}.

Definition initial : loop_state := mkLoop [] 0 [].

Definition set_buffer (b : text) (st : loop_state) : loop_state :=
  mkLoop b (clock st) (effects st).

Definition perform (e : effect) (st : loop_state) : loop_state :=
  mkLoop (buffer st) (clock st) (effects st ++ [e]).

Definition tick (st : loop_state) : loop_state :=
  mkLoop (buffer st) (S (clock st)) (effects st).

Definition printed (st : loop_state) : list text :=
  flat_map (fun e => match e with Print s => [s] | QueuePut _ => [] end) (effects st).

Definition enqueued (st : loop_state) : list text :=
  flat_map (fun e => match e with QueuePut s => [s] | Print _ => [] end) (effects st).

Definition inspect {A : Type} (a : A) : {b : A | a = b} := exist _ a eq_refl.

Section Loop.

(** [now k] is the [k]-th reading of
    [datetime.now().strftime("%H:%M:%S.%f")]. *)
Variable now : nat -> text.
Variable self : ESPMonitor.
Variable show_timestamps : bool.

Definition format_line (line : text) (timestamp : bool) (k : nat) : text :=
  if timestamp then str "[" ++ drop_last3 (now k) ++ str "] " ++ line
  else line.

Definition should_display (line : text) : bool :=
  match filter_pattern self with
  | None => true
  | Some p => search p line
  end.

(** The body of [while '\n' in buffer] after the line has been split off
    and stripped. *)
Definition dispatch (line : text) (st : loop_state) : loop_state :=
  if truthy line && should_display line then
    let formatted := format_line line show_timestamps (clock st) in
    let st1 := if show_timestamps then tick st else st in
    let st2 := perform (Print formatted) st1 in
    if given (log_file self) then perform (QueuePut (formatted ++ [LF])) st2
    else st2
  else st.

(** [while '\n' in buffer: line, buffer = buffer.split('\n', 1); ...] *)
Equations? process_lines (st : loop_state) : loop_state
  by wf (length (buffer st)) lt :=
  process_lines st with inspect (split1 LF (buffer st)) := {
    | exist _ (line, Some rest) _ =>
        process_lines (dispatch (rstrip CR line) (set_buffer rest st));
    | exist _ (_, None) _ => st }.
Proof.
  clear process_lines.
  assert (Hb : forall l s, buffer (dispatch l s) = buffer s).
  { intros l s. unfold dispatch.
    destruct (truthy l && should_display l); [|reflexivity].
    destruct show_timestamps, (given (log_file self)); reflexivity. }
  rewrite Hb. simpl.
  assert (Hs : forall s l r, split1 LF s = (l, Some r) -> length r < length s).
  { induction s as [|c s IH]; intros l r; simpl; [discriminate|].
    destruct (c =? LF)%N; [intros [= <- <-]; lia|].
    destruct (split1 LF s) as [l' t] eqn:E. intros [= <- ->].
    specialize (IH l' r eq_refl). lia. }
  eapply Hs; eassumption.
Qed.

(** One pass of [if self.serial_conn.in_waiting > 0: try: ... except
    UnicodeDecodeError: ...] with [data] the bytes returned by [read]. *)
Definition read_chunk (data : list byte) (st : loop_state) : outcome loop_state :=
  match bytes_decode replace data with
  | Ok d => Ok (process_lines (set_buffer (buffer st ++ d) st))
  | Raise UnicodeDecodeError => Ok (perform (Print (str "[BINARY DATA]")) st)
  | Raise e => Raise e
  end.

(** What one iteration of [while self.running] meets. *)
Inductive event : Type :=
| Waiting (data : list byte)   (* [in_waiting > 0]; [read] returns [data] *)
| Quiet                        (* [in_waiting == 0] *)
| Interrupted                  (* Ctrl+C: [KeyboardInterrupt] *)
| Failed.                      (* the serial port raises *)

(** The [while self.running] loop over the events it meets; the second
    component is the exception that ended it, if any did. *)
Fixpoint poll (events : list event) (st : loop_state) : loop_state * option exn :=
  match events with
  | [] => (st, None)
  | Waiting data :: es =>
    match read_chunk data st with
    | Ok st' => poll es st'
    | Raise e => (st, Some e)
    end
  | Quiet :: es => poll es st
  | Interrupted :: _ => (st, Some KeyboardInterrupt)
  | Failed :: _ => (st, Some SerialException)
  end.

(** [monitor]: [connected] is the result of [self.connect()].  [None]
    means the loop is still polling when the events run out. *)
Definition monitor (connected : bool) (events : list event)
  : option (bool * loop_state) :=
  if negb connected then Some (false, initial)
  else
    match poll events initial with
    | (st, Some _) => Some (true, st)   (* both handlers fall through to [return True] *)
    | (_, None) => None
    end.

(** Feeding a sequence of chunks, one [read] each. *)
Definition feed (chunks : list (list byte)) (st : loop_state) : loop_state :=
  fst (poll (map Waiting chunks) st).

End Loop.

(** The command line of [main]. *)
Record Args : Type := mkArgs {
  arg_port : text;
  arg_baudrate : Z;
  arg_log : option text;
  arg_filter : option text;
  arg_no_timestamps : bool;
  arg_command : option text
}.

(** [main]: the value [monitor.monitor(...)] returns is dropped.  [None]
    means [main] has not returned when the events run out. *)
Definition main (re_compile : text -> outcome pattern) (now : nat -> text)
    (args : Args) (connected : bool) (events : list event)
  : option (outcome unit) :=
  match __init__ re_compile (arg_port args) (arg_baudrate args)
                 (arg_log args) (arg_filter args) with
  | Raise e => Some (Raise e)
  | Ok m =>
    if given (arg_command args) then Some (Ok tt)
    else
      match monitor now m (negb (arg_no_timestamps args)) connected events with
      | Some _ => Some (Ok tt)
      | None => None
      end
  end.

(** The status the interpreter exits with: 0 when the script runs to its
    end, 1 on an uncaught exception. *)
Definition exit_status (r : outcome unit) : Z :=
  match r with
  | Ok _ => 0
  | Raise _ => 1
  end.

End Monitor.

(* ===================================================================== *)
(** * The read loop and [log_writer] as two threads *)
(* ===================================================================== *)
Module Threads.

(** Where the main thread is in [monitor]. *)
Inductive main_pc : Type :=
| MPolling    (* inside [while self.running] of the [try] block *)
| MJoining    (* [finally] has run [self.running = False] and [disconnect];
                 [log_thread.join(timeout=2)] is pending *)
| MExited.    (* [monitor] has returned and the process has exited; the
                 daemon thread is gone with it *)

(** Where the log thread is in [log_writer]. *)
Inductive writer_pc : Type :=
| WTest       (* at [while self.running] *)
| WGet        (* inside [self.log_queue.get(timeout=1)] *)
| WDone.      (* out of the [with] block: the log file is closed *)

(** What the two threads share, and where each of them is.  [log] is what
    has been written and flushed to the file during this session;
    [produced] records every entry handed to [put], for stating
    properties. *)
Record system : Type := mkSystem {
  running : bool;
  log_queue : Queue;
  log : list text;
  main_at : main_pc;
  writer_at : writer_pc;
  produced : list text
}.

(** The state when the read loop is entered: [running] is set, the thread
    has been started, the queue is the one [__init__] created. *)
Definition init : system :=
  mkSystem true (Queue_new 0) [] MPolling WTest [].

Inductive action : Type :=
| MainPut (entry : text)   (* [self.log_queue.put(formatted_line + '\n')] *)
| MainStop                 (* an exception leaves the loop; [finally] clears [running] *)
| MainJoin                 (* [join] returns because the log thread has finished *)
| MainJoinTimeout          (* [join] returns after its two seconds *)
| WriterTest               (* the log thread evaluates [while self.running] *)
| WriterGet                (* [get] returns an entry; [f.write]; [f.flush] *)
| WriterEmpty.             (* [get] times out on an empty queue: [continue] *)

(** One atomic step of one thread; [None] when the action is not enabled
    (a [put] on a full queue is not enabled: the producer waits). *)
Definition step (a : action) (s : system) : option system :=
  match a, main_at s, writer_at s with
  | MainPut e, MPolling, _ =>
    match put (log_queue s) e with
    | Some q => Some (mkSystem (running s) q (log s) MPolling (writer_at s)
                               (produced s ++ [e]))
    | None => None
    end
  | MainStop, MPolling, _ =>
    Some (mkSystem false (log_queue s) (log s) MJoining (writer_at s) (produced s))
  | MainJoin, MJoining, WDone =>
    Some (mkSystem (running s) (log_queue s) (log s) MExited WDone (produced s))
  | MainJoinTimeout, MJoining, _ =>
    Some (mkSystem (running s) (log_queue s) (log s) MExited (writer_at s) (produced s))
  | WriterTest, (MPolling | MJoining), WTest =>
    Some (mkSystem (running s) (log_queue s) (log s) (main_at s)
                   (if running s then WGet else WDone) (produced s))
  | WriterGet, (MPolling | MJoining), WGet =>
    match get (log_queue s) with
    | Some (e, q) => Some (mkSystem (running s) q (log s ++ [e]) (main_at s) WTest
                                    (produced s))
    | None => None
    end
  | WriterEmpty, (MPolling | MJoining), WGet =>
    match get (log_queue s) with
    | Some _ => None
    | None => Some (mkSystem (running s) (log_queue s) (log s) (main_at s) WTest
                             (produced s))
    end
  | _, _, _ => None
  end.

(** A schedule: the actions the two threads take, in order. *)
Fixpoint run (schedule : list action) (s : system) : option system :=
  match schedule with
  | [] => Some s
  | a :: rest =>
    match step a s with
    | Some s' => run rest s'
    | None => None
    end
  end.

Definition reachable (s : system) : Prop :=
  exists schedule, run schedule init = Some s.

(** The number of entries waiting in the queue. *)
Definition qsize (s : system) : nat := length (items (log_queue s)).

End Threads.

Import Monitor.

(* ===================================================================== *)
(** * Auxiliary definitions and sample data *)
(* ===================================================================== *)

(** Appending freshly decoded text to the pending buffer: [buffer += data]. *)
Definition append (d : text) (st : loop_state) : loop_state :=
  set_buffer (buffer st ++ d) st.

(** Bytes that are all ASCII. *)
Definition ascii_only (data : list byte) : Prop :=
  Forall (fun b => (Byte.to_N b < 128)%N) data.

Definition sample_clock : nat -> text := fun _ => str "12:00:00.000000".

(** A monitor that logs and has no filter. *)
Definition plain_monitor : ESPMonitor :=
  mkESPMonitor (str "COM3") 115200 (Some (str "esp.log")) None false (Queue_new 0).

(** A monitor that neither logs nor filters. *)
Definition console_monitor : ESPMonitor :=
  mkESPMonitor (str "COM3") 115200 None None false (Queue_new 0).

(** [re.compile] on patterns free of metacharacters. *)
Definition compile_plain (p : text) : outcome Re.pattern := Ok (Re.literal p).

(** The monitor built with [--log esp.log --filter ERR]. *)
Definition err_monitor : ESPMonitor :=
  mkESPMonitor (str "COM3") 115200 (Some (str "esp.log"))
               (Some (Re.literal (str "ERR"))) false (Queue_new 0).

Definition CRLF : list byte := [x0d; x0a].

Definition plain_args : Args :=
  mkArgs (str "COM3") 115200 None None false None.

(** The bytes of the scenario: boot, OK, and a line left unfinished. *)
Definition boot_ok_incomplete : list byte :=
  bytes_of "boot" ++ CRLF ++ bytes_of "OK" ++ CRLF ++ bytes_of "incomplete".

(** ** The line loop as a function of the buffer *)

(** The lines of a text that end in a newline, without that newline, in
    order, and the text left after the last newline. *)
Fixpoint terminated (s : text) : list text * text :=
  match s with
  | [] => ([], [])
  | c :: r =>
    let (ls, tail) := terminated r in
    if (c =? LF)%N then ([] :: ls, tail)
    else
      match ls with
      | [] => ([], c :: tail)
      | l :: ls' => ((c :: l) :: ls', tail)
      end
  end.

(** The lines the loop forwards: stripped of trailing carriage returns,
    non-empty and accepted by the filter. *)
Definition forwarded (self : ESPMonitor) (s : text) : list text :=
  filter (fun l => truthy l && should_display self l)
         (map (rstrip CR) (fst (terminated s))).

(** Formatting a run of lines, the clock being read once per line when
    timestamps are shown, starting at reading [k]. *)
Fixpoint stamp (now : nat -> text) (timestamp : bool) (k : nat)
    (lines : list text) : list text :=
  match lines with
  | [] => []
  | l :: rest =>
    format_line now l timestamp k
      :: stamp now timestamp (if timestamp then S k else k) rest
  end.

(** A line as it is handed to the queue. *)
Definition log_entry (formatted : text) : text := formatted ++ [LF].

(** A line the console can show when timestamps are off: not empty, no
    newline inside, no carriage return at its end. *)
Definition clean_line (l : text) : Prop :=
  l <> [] /\ contains LF l = false /\ forall t, l <> t ++ [CR].

(** The same monitor with its filter removed. *)
Definition without_filter (self : ESPMonitor) : ESPMonitor :=
  mkESPMonitor (port self) (baudrate self) (log_file self) None
               (Monitor.running self) (Monitor.log_queue self).

(** What [read(...).decode('utf-8', errors='replace')] puts in [data]. *)
Definition decoded (data : list byte) : text :=
  match bytes_decode replace data with
  | Ok d => d
  | Raise _ => []
  end.

(** ** The two threads: auxiliary notions *)

(** The actions of the log thread. *)
Definition writer_action (a : Threads.action) : bool :=
  match a with
  | Threads.WriterTest | Threads.WriterGet | Threads.WriterEmpty => true
  | _ => false
  end.

(** How many entries the log thread can still write once [running] is
    cleared: the one a pending [get] may return, none otherwise. *)
Definition last_writes (w : Threads.writer_pc) : nat :=
  match w with
  | Threads.WGet => 1
  | _ => 0
  end.

(** ** The serial link: [connect], [disconnect], [send_command] *)
Module Link.

(** A [serial.Serial] object as the monitor uses it: whether the port is
    open, and the bytes written to the device so far, oldest first. *)
Record Serial : Type := mkSerial { is_open : bool; sent : list byte }.

(** What the three methods print. *)
Inductive notice : Type :=
| Connected        (* "Connected to <port> at <baudrate> baud" *)
| ConnectFailed    (* "Failed to connect to <port>: <error>" *)
| Disconnected     (* "Disconnected from serial port" *)
| NotConnected     (* "Not connected to device" *)
| Sent (command : text)   (* "Sent: <command>" *)
| SendFailed.      (* "Failed to send command: <error>" *)

(** The byte with a given value below 256. *)
Definition byte_of (n : N) : byte :=
  match Byte.of_N n with
  | Some b => b
  | None => x00
  end.

(** The UTF-8 form of one code point, as [str.encode('utf-8')] produces
    it; [None] stands for [UnicodeEncodeError], raised on a surrogate (a
    value above U+10FFFF is no character of a [str]). *)
Definition utf8_encode_char (c : codepoint) : option (list byte) :=
  if (c <? 128)%N then Some [byte_of c]
  else if (c <? 2048)%N then
    Some [byte_of (N.lor 192 (N.shiftr c 6));
          byte_of (N.lor 128 (N.land c 63))]
  else if (c <? 65536)%N then
    if (55296 <=? c)%N && (c <? 57344)%N then None
    else
      Some [byte_of (N.lor 224 (N.shiftr c 12));
            byte_of (N.lor 128 (N.land (N.shiftr c 6) 63));
            byte_of (N.lor 128 (N.land c 63))]
  else if (c <? 1114112)%N then
    Some [byte_of (N.lor 240 (N.shiftr c 18));
          byte_of (N.lor 128 (N.land (N.shiftr c 12) 63));
          byte_of (N.lor 128 (N.land (N.shiftr c 6) 63));
          byte_of (N.lor 128 (N.land c 63))]
  else None.

(** [s.encode('utf-8')] *)
Fixpoint str_encode (s : text) : option (list byte) :=
  match s with
  | [] => Some []
  | c :: rest =>
    match utf8_encode_char c, str_encode rest with
    | Some b, Some bs => Some (b ++ bs)
    | _, _ => None
    end
  end.

(** [connect]; [opens] tells whether [serial.Serial(port, baudrate,
    timeout=1)] succeeds.  On failure [serial_conn] keeps its value. *)
Definition connect (opens : bool) (serial_conn : option Serial)
  : bool * option Serial * list notice :=
  if opens then (true, Some (mkSerial true []), [Connected])
  else (false, serial_conn, [ConnectFailed]).

(** [disconnect] *)
Definition disconnect (serial_conn : option Serial)
  : option Serial * list notice :=
  match serial_conn with
  | Some c =>
    if is_open c then (Some (mkSerial false (sent c)), [Disconnected])
    else (serial_conn, [])
  | None => (None, [])
  end.

(** [send_command]; [writes] tells whether [serial_conn.write] succeeds.
    Any exception of the [try] body, from [encode] or from [write], is
    caught and reported. *)
Definition send_command (writes : bool) (command : text)
    (serial_conn : option Serial) : bool * option Serial * list notice :=
  match serial_conn with
  | Some c =>
    if is_open c then
      match str_encode (command ++ [LF]) with
      | Some data =>
        if writes
        then (true, Some (mkSerial true (sent c ++ data)), [Sent command])
        else (false, serial_conn, [SendFailed])
      | None => (false, serial_conn, [SendFailed])
      end
    else (false, serial_conn, [NotConnected])
  | None => (false, None, [NotConnected])
  end.

(** The [--command] branch of [main]: connect, send, wait, disconnect. *)
Definition command_mode (opens writes : bool) (command : text)
  : option Serial * list notice :=
  let '(ok, conn, n1) := connect opens None in
  if ok then
    let '(_, conn2, n2) := send_command writes command conn in
    let '(conn3, n3) := disconnect conn2 in
    (conn3, n1 ++ n2 ++ n3)
  else (conn, n1).

End Link.

(** A code point that [str.encode('utf-8')] accepts: a Unicode scalar
    value. *)
Definition scalar (c : codepoint) : Prop :=
  (c < 55296 \/ 57344 <= c < 1114112)%N.



(** The bytes that went out on a connection. *)
Definition wire (conn : option Link.Serial) : list byte :=
  match conn with
  | Some c => Link.sent c
  | None => []
  end.

(** * [scripts/dev.py]: running the build tool *)
Module Dev.

(** How [subprocess.run] ends: the exit code of the process, or no such
    executable ([FileNotFoundError]). *)
Inductive finished : Type :=
| Exited (code : Z)
| NotFound.

(** The commands run so far, oldest first. *)
Definition history := list (list string).

Section Run.

(** [os k cmd]: how the [k]-th subprocess of the session ends when it is
    started with command line [cmd]. *)
Variable os : nat -> list string -> finished.

(** Whether the next subprocess, started with [cmd], exits with code 0. *)
Definition succeeds (h : history) (cmd : list string) : bool :=
  match os (length h) cmd with
  | Exited 0 => true
  | _ => false
  end.

(** [run_command]: with [check=True] a nonzero exit code raises
    [CalledProcessError]; both it and [FileNotFoundError] give [False]. *)
Definition run_command (cmd : list string) (h : history) : bool * history :=
  (succeeds h cmd, h ++ [cmd]).

Definition build_project (env : string) : history -> bool * history :=
  run_command ["pio"; "run"; "-e"; env]%string.

Definition upload_project (env : string) : history -> bool * history :=
  run_command ["pio"; "run"; "-e"; env; "--target"; "upload"]%string.

Definition monitor_device : history -> bool * history :=
  run_command ["pio"; "device"; "monitor"]%string.

Definition clean_project : history -> bool * history :=
  run_command ["pio"; "run"; "--target"; "clean"]%string.

Definition upload_filesystem : history -> bool * history :=
  run_command ["pio"; "run"; "--target"; "uploadfs"]%string.

Definition check_devices : history -> bool * history :=
  run_command ["pio"; "device"; "list"]%string.

(** [for step_name, step_func in steps: if not step_func(): return False]
    and [return True] after the loop. *)
Fixpoint run_steps (steps : list (string * (history -> bool * history)))
    (h : history) : bool * history :=
  match steps with
  | [] => (true, h)
  | (_, step_func) :: rest =>
    let (ok, h') := step_func h in
    if ok then run_steps rest h' else (false, h')
  end.

Definition full_deploy (env : string) : history -> bool * history :=
  run_steps [("Clean", clean_project);
             ("Build", build_project env);
             ("Upload", upload_project env);
             ("Monitor", monitor_device)]%string.

(** The [action] argument; [argparse] admits no other value. *)
Inductive action : Type :=
| Build | Upload | Monitor | Clean | UploadFs | Devices | Deploy
| DebugBuild | OtaUpload.

(** [main]: the exit status and the commands run. *)
Definition main (act : action) (env : string) (h : history) : Z * history :=
  let (success, h') :=
    match act with
    | Build => build_project env h
    | Upload => upload_project env h
    | Monitor => monitor_device h
    | Clean => clean_project h
    | UploadFs => upload_filesystem h
    | Devices => check_devices h
    | Deploy => full_deploy env h
    | DebugBuild => build_project "esp32dev_debug" h
    | OtaUpload => upload_project "esp32dev_ota" h
    end in
  (if success then 0%Z else 1%Z, h').

End Run.

(** The four command lines of a full deployment. *)
Definition deploy_commands (env : string) : list (list string) :=
  [["pio"; "run"; "--target"; "clean"];
   ["pio"; "run"; "-e"; env];
   ["pio"; "run"; "-e"; env; "--target"; "upload"];
   ["pio"; "device"; "monitor"]]%string.

(** Every command run since [h] exited with code 0. *)
Definition all_succeeded (os : nat -> list string -> finished)
    (h : history) (ran : list (list string)) : Prop :=
  forall i cmd, nth_error ran i = Some cmd ->
    os (length h + i) cmd = Exited 0.

End Dev.

(** * [scripts/ota_update.py]: the update log *)
Module Ota.

Section UpdateLog.

(** A log entry (timestamp, device, firmware path and size, MD5, success). *)
Variable entry : Type.

(** What [logs/ota_updates.json] holds when [create_update_log] starts. *)
Inductive stored : Type :=
| NoFile                       (* the file does not exist *)
| Unreadable                   (* opening or parsing fails: [except: logs = []] *)
| NotAList                     (* valid JSON that is not a list *)
| Entries (logs : list entry).

(** How [create_update_log] ends. *)
Inductive saved : Type :=
| Saved (logs : list entry)    (* the file now holds [logs] *)
| NotSaved                     (* writing failed; a warning is printed *)
| Crashed.                     (* [logs.append] raised on a value that is no list *)

(** [logs[-n:]] *)
Definition keep_last (n : nat) (logs : list entry) : list entry :=
  skipn (length logs - n) logs.

Definition create_update_log (file : stored) (log_entry : entry)
    (writable : bool) : saved :=
  match file with
  | NotAList => Crashed
  | _ =>
    let logs := match file with Entries l => l | _ => [] end in
    let logs := logs ++ [log_entry] in
    let logs := keep_last 50 logs in
    if writable then Saved logs else NotSaved
  end.

(** Successive updates, each reading the file the previous one wrote. *)
Fixpoint updates (file : stored) (entries : list entry) : option stored :=
  match entries with
  | [] => Some file
  | e :: rest =>
    match create_update_log file e true with
    | Saved logs => updates (Entries logs) rest
    | _ => None
    end
  end.

End UpdateLog.

End Ota.

(** The entries a file contributes to the next update: none unless it
    holds a list. *)
Definition previous (entry : Type) (file : Ota.stored entry) : list entry :=
  match file with
  | Ota.Entries _ l => l
  | _ => []
  end.

(* ===================================================================== *)
(** * Facts about the built-ins *)
(* ===================================================================== *)

Example decode_check_mark :
  bytes_decode replace [xe2; x9c; x85] = Ok [9989%N].
Proof. reflexivity. Qed.

Example decode_truncated :
  bytes_decode replace [xe2; x9c] = Ok [REPLACEMENT].
Proof. reflexivity. Qed.

Example decode_orphans :
  bytes_decode replace [x9c; x85; x0a] = Ok [REPLACEMENT; REPLACEMENT; LF].
Proof. reflexivity. Qed.

Example decode_strict_raises :
  bytes_decode strict [x41; xff] = Raise UnicodeDecodeError.
Proof. reflexivity. Qed.

Example rstrip_all : rstrip CR (str "x" ++ [CR; CR]) = str "x".
Proof. reflexivity. Qed.

Section ReFacts.
Import Re.

Lemma nullable_spec p : nullable p = true <-> Matches p [].
Proof.
  induction p; simpl; split; intros H.
  - discriminate.
  - inversion H.
  - constructor.
  - reflexivity.
  - discriminate.
  - inversion H.
  - discriminate.
  - inversion H.
  - apply andb_true_iff in H as [H1 H2].
    change (@nil codepoint) with (@nil codepoint ++ []).
    constructor; [apply IHp1 | apply IHp2]; assumption.
  - inversion H as [| | |p q s1 s2 H1 H2 Ep Es| | | |]; subst.
    apply app_eq_nil in Es as [-> ->].
    apply andb_true_iff; split; [apply IHp1 | apply IHp2]; assumption.
  - apply orb_true_iff in H as [H|H];
      [apply MAltL, IHp1 | apply MAltR, IHp2]; assumption.
  - apply orb_true_iff. inversion H; subst;
      [left; apply IHp1 | right; apply IHp2]; assumption.
  - constructor.
  - reflexivity.
Qed.

Lemma star_cons_inv p c s :
  Matches (Star p) (c :: s) ->
  exists s1 s2, s = s1 ++ s2 /\ Matches p (c :: s1) /\ Matches (Star p) s2.
Proof.
  intros H. remember (Star p) as r eqn:Er. remember (c :: s) as w eqn:Ew.
  revert s Ew.
  induction H as [| | | | | | |q s1 s2 H1 _ H2 IH2]; intros s0 Ew;
    try discriminate.
  injection Er as ->.
  destruct s1 as [|d s1].
  - simpl in Ew. apply IH2; auto.
  - simpl in Ew. injection Ew as -> <-.
    exists s1, s2. auto.
Qed.

Lemma deriv_spec p : forall c s, Matches (deriv c p) s <-> Matches p (c :: s).
Proof.
  induction p; intros a s; simpl.
  - split; intros H; inversion H.
  - split; intros H; inversion H.
  - destruct (N.eqb_spec a c) as [->|Hne]; split; intros H.
    + inversion H; subst. constructor.
    + inversion H; subst. constructor.
    + inversion H.
    + inversion H; subst. contradiction.
  - destruct (N.eqb_spec a LF) as [->|Hne]; split; intros H.
    + inversion H.
    + inversion H; subst. contradiction.
    + inversion H; subst. constructor. assumption.
    + inversion H; subst. constructor.
  - assert (Hcat : forall s, Matches (Cat (deriv a p1) p2) s ->
                             Matches (Cat p1 p2) (a :: s)).
    { intros s' H. inversion H; subst.
      change (a :: s1 ++ s2) with ((a :: s1) ++ s2).
      constructor; [apply IHp1|]; assumption. }
    destruct (nullable p1) eqn:Hn; split; intros H.
    + inversion H; subst; [apply Hcat; assumption|].
      change (a :: s) with ([] ++ a :: s).
      constructor; [apply nullable_spec | apply IHp2]; assumption.
    + inversion H as [| | |p q s1 s2 H1 H2 Ep Es| | | |]; subst.
      destruct s1 as [|d s1]; simpl in Es.
      * subst s2. apply MAltR, IHp2. assumption.
      * injection Es as -> <-. apply MAltL. constructor; [apply IHp1|]; assumption.
    + apply Hcat; assumption.
    + inversion H as [| | |p q s1 s2 H1 H2 Ep Es| | | |]; subst.
      destruct s1 as [|d s1]; simpl in Es.
      * apply nullable_spec in H1. congruence.
      * injection Es as -> <-. constructor; [apply IHp1|]; assumption.
  - split; intros H; inversion H; subst.
    + apply MAltL, IHp1; assumption.
    + apply MAltR, IHp2; assumption.
    + apply MAltL, IHp1; assumption.
    + apply MAltR, IHp2; assumption.
  - split; intros H.
    + inversion H; subst.
      change (a :: s1 ++ s2) with ((a :: s1) ++ s2).
      constructor; [apply IHp|]; assumption.
    + apply star_cons_inv in H as (s1 & s2 & -> & H1 & H2).
      constructor; [apply IHp|]; assumption.
Qed.

Lemma fullmatch_spec s : forall p, fullmatch p s = true <-> Matches p s.
Proof.
  induction s as [|c s IH]; intros p; simpl.
  - apply nullable_spec.
  - rewrite IH. apply deriv_spec.
Qed.

(** [match] succeeds exactly when a prefix of the string matches. *)
Lemma match_spec s : forall p,
  match_ p s = true <-> exists mid post, s = mid ++ post /\ Matches p mid.
Proof.
  induction s as [|c s IH]; intros p; simpl.
  - rewrite orb_false_r, nullable_spec. split.
    + intros H. exists [], []. auto.
    + intros (mid & post & E & H). symmetry in E.
      apply app_eq_nil in E as [-> _]. assumption.
  - rewrite orb_true_iff, nullable_spec, IH. split.
    + intros [H | (mid & post & -> & H)].
      * exists [], (c :: s). auto.
      * exists (c :: mid), post. split; [reflexivity | apply deriv_spec; assumption].
    + intros (mid & post & E & H). destruct mid as [|d mid].
      * left; assumption.
      * simpl in E. injection E as <- ->. right.
        exists mid, post. split; [reflexivity | apply deriv_spec; assumption].
Qed.

(** [search] succeeds exactly when some substring of the string matches. *)
Lemma search_spec s : forall p,
  search p s = true <->
  exists pre mid post, s = pre ++ mid ++ post /\ Matches p mid.
Proof.
  induction s as [|c s IH]; intros p; simpl.
  - rewrite orb_false_r, orb_false_r, nullable_spec. split.
    + intros H. exists [], [], []. auto.
    + intros (pre & mid & post & E & H). symmetry in E.
      apply app_eq_nil in E as [_ E]. apply app_eq_nil in E as [-> _].
      assumption.
  - rewrite orb_true_iff, IH.
    change (nullable p || match_ (deriv c p) s) with (match_ p (c :: s)).
    rewrite match_spec. split.
    + intros [(mid & post & E & H) | (pre & mid & post & -> & H)].
      * exists [], mid, post. auto.
      * exists (c :: pre), mid, post. auto.
    + intros (pre & mid & post & E & H). destruct pre as [|d pre].
      * left. exists mid, post. auto.
      * simpl in E. injection E as <- ->. right. exists pre, mid, post. auto.
Qed.

Lemma literal_matches s : Matches (literal s) s.
Proof.
  induction s as [|c s IH]; simpl.
  - constructor.
  - change (c :: s) with ([c] ++ s). constructor; [constructor | assumption].
Qed.

End ReFacts.

Section PyFacts.

(** ** [split] *)

Lemma split1_shorter sep s line rest :
  split1 sep s = (line, Some rest) -> length rest < length s.
Proof.
  revert line rest. induction s as [|c s IH]; intros line rest; simpl.
  - discriminate.
  - destruct (c =? sep)%N.
    + intros [= <- <-]. lia.
    + destruct (split1 sep s) as [l t] eqn:E. intros [= <- ->].
      specialize (IH l rest eq_refl). lia.
Qed.

Lemma split1_app sep s line rest d :
  split1 sep s = (line, Some rest) ->
  split1 sep (s ++ d) = (line, Some (rest ++ d)).
Proof.
  revert line rest. induction s as [|c s IH]; intros line rest; simpl.
  - discriminate.
  - destruct (c =? sep)%N.
    + intros [= <- <-]. reflexivity.
    + destruct (split1 sep s) as [l t] eqn:E. intros [= <- ->].
      rewrite (IH l rest eq_refl). reflexivity.
Qed.

Lemma split1_none sep s line :
  split1 sep s = (line, None) -> line = s /\ contains sep s = false.
Proof.
  revert line. induction s as [|c s IH]; intros line; simpl.
  - intros [= <-]. auto.
  - rewrite (N.eqb_sym sep c). destruct (c =? sep)%N; [discriminate|].
    destruct (split1 sep s) as [l t] eqn:E. intros [= <- ->].
    destruct (IH l eq_refl) as [-> ->]. auto.
Qed.

Lemma split1_some sep s line rest :
  split1 sep s = (line, Some rest) ->
  s = line ++ sep :: rest /\ contains sep line = false.
Proof.
  revert line rest. induction s as [|c s IH]; intros line rest; simpl.
  - discriminate.
  - destruct (N.eqb_spec c sep) as [->|Hne].
    + intros [= <- <-]. auto.
    + destruct (split1 sep s) as [l t] eqn:E. intros [= <- ->].
      destruct (IH l rest eq_refl) as [-> Hl]. simpl.
      rewrite Hl. destruct (N.eqb_spec sep c); [congruence | auto].
Qed.

Lemma split1_at sep pre tail :
  contains sep pre = false ->
  split1 sep (pre ++ sep :: tail) = (pre, Some tail).
Proof.
  induction pre as [|c pre IH]; simpl.
  - rewrite N.eqb_refl. reflexivity.
  - rewrite (N.eqb_sym sep c). destruct (c =? sep)%N; [discriminate|].
    simpl. intros H. rewrite (IH H). reflexivity.
Qed.

Lemma split1_absent sep s :
  contains sep s = false -> split1 sep s = (s, None).
Proof.
  induction s as [|c s IH]; simpl.
  - reflexivity.
  - rewrite (N.eqb_sym sep c). destruct (c =? sep)%N; [discriminate|].
    simpl. intros H. rewrite (IH H). reflexivity.
Qed.

Lemma contains_app c s t :
  contains c (s ++ t) = contains c s || contains c t.
Proof. apply existsb_app. Qed.

Lemma contains_repeat c d n : c <> d -> contains c (repeat d n) = false.
Proof.
  intros H. induction n as [|n IH]; simpl; [reflexivity|].
  rewrite IH. destruct (N.eqb_spec c d); [contradiction | reflexivity].
Qed.

(** ** [rstrip] *)

Lemma rstrip_repeat c n : rstrip c (repeat c n) = [].
Proof.
  induction n as [|n IH]; simpl; [reflexivity|].
  rewrite IH, N.eqb_refl. reflexivity.
Qed.

Lemma rstrip_app_repeat c s n : rstrip c (s ++ repeat c n) = rstrip c s.
Proof.
  induction s as [|x s IH]; simpl.
  - apply rstrip_repeat.
  - rewrite IH. reflexivity.
Qed.

(** [rstrip] only removes a run of [c] at the end. *)
Lemma rstrip_decompose c s : exists n, s = rstrip c s ++ repeat c n.
Proof.
  induction s as [|x s [n IH]]; simpl.
  - exists 0. reflexivity.
  - destruct (rstrip c s) as [|y r] eqn:E.
    + destruct (N.eqb_spec x c) as [->|Hne].
      * exists (S n). simpl. simpl in IH. congruence.
      * exists n. simpl. simpl in IH. congruence.
    + exists n. simpl. rewrite IH at 1. reflexivity.
Qed.

(** What [rstrip] returns does not end in [c]. *)
Lemma rstrip_no_trailing c s : forall t, rstrip c s <> t ++ [c].
Proof.
  induction s as [|x s IH]; intros t; simpl.
  - destruct t; discriminate.
  - destruct (rstrip c s) as [|y r] eqn:E.
    + destruct (N.eqb_spec x c) as [->|Hne].
      * destruct t; discriminate.
      * destruct t as [|z [|z' t]]; simpl; try discriminate.
        intros [= ->]. contradiction.
    + destruct t as [|z t]; simpl; [discriminate|].
      intros [= -> Hr]. exact (IH t Hr).
Qed.

(** A string that does not end in [c] is left alone. *)
Lemma rstrip_fixed c s : (forall t, s <> t ++ [c]) -> rstrip c s = s.
Proof.
  induction s as [|x s IH]; intros H; simpl; [reflexivity|].
  destruct s as [|y s].
  - simpl. destruct (N.eqb_spec x c) as [->|Hne]; [|reflexivity].
    exfalso. apply (H []). reflexivity.
  - rewrite IH.
    + reflexivity.
    + intros t Ht. apply (H (x :: t)). simpl. rewrite Ht. reflexivity.
Qed.

(** ** [decode] *)

(** The defining equation of the decoder at a non-empty input. *)
Lemma utf8_decode_unfold errors b s1 :
  utf8_decode errors (b :: s1) =
  let ch := Byte.to_N b in
  if (ch <? 128)%N then emit ch (utf8_decode errors s1)
  else if (ch <? 194)%N then decode_error errors (utf8_decode errors s1)
  else if (ch <? 224)%N then
    match s1 with
    | [] => decode_error errors (Ok [])
    | b2 :: s2 =>
      let ch2 := Byte.to_N b2 in
      if negb (is_continuation ch2)
      then decode_error errors (utf8_decode errors s1)
      else emit (cp2 ch ch2) (utf8_decode errors s2)
    end
  else if (ch <? 240)%N then
    match s1 with
    | [] => decode_error errors (Ok [])
    | b2 :: s2 =>
      let ch2 := Byte.to_N b2 in
      if bad_second3 ch ch2
      then decode_error errors (utf8_decode errors s1)
      else
        match s2 with
        | [] => decode_error errors (Ok [])
        | b3 :: s3 =>
          let ch3 := Byte.to_N b3 in
          if negb (is_continuation ch3)
          then decode_error errors (utf8_decode errors s2)
          else emit (cp3 ch ch2 ch3) (utf8_decode errors s3)
        end
    end
  else if (ch <? 245)%N then
    match s1 with
    | [] => decode_error errors (Ok [])
    | b2 :: s2 =>
      let ch2 := Byte.to_N b2 in
      if bad_second4 ch ch2
      then decode_error errors (utf8_decode errors s1)
      else
        match s2 with
        | [] => decode_error errors (Ok [])
        | b3 :: s3 =>
          let ch3 := Byte.to_N b3 in
          if negb (is_continuation ch3)
          then decode_error errors (utf8_decode errors s2)
          else
            match s3 with
            | [] => decode_error errors (Ok [])
            | b4 :: s4 =>
              let ch4 := Byte.to_N b4 in
              if negb (is_continuation ch4)
              then decode_error errors (utf8_decode errors s3)
              else emit (cp4 ch ch2 ch3 ch4) (utf8_decode errors s4)
            end
        end
    end
  else decode_error errors (utf8_decode errors s1).
Proof. destruct s1; reflexivity. Qed.

(** One round of the decoder: it either emits a character or reports an
    error, and in both cases goes on with a strictly shorter input; the
    input left over does not depend on the error handler. *)
Lemma utf8_decode_step (s : list byte) :
  s <> [] ->
  exists rest, length rest < length s /\
    ((exists c, forall errors,
        utf8_decode errors s = emit c (utf8_decode errors rest)) \/
     (forall errors,
        utf8_decode errors s = decode_error errors (utf8_decode errors rest))).
Proof.
  destruct s as [|b s1]; [congruence|]. intros _.
  destruct (Byte.to_N b <? 128)%N eqn:E1.
  { exists s1. split; [simpl; lia|]. left. eexists. intros errors.
    cbn [utf8_decode]. cbv zeta. rewrite E1. reflexivity. }
  destruct (Byte.to_N b <? 194)%N eqn:E2.
  { exists s1. split; [simpl; lia|]. right. intros errors.
    cbn [utf8_decode]. cbv zeta. rewrite E1, E2. reflexivity. }
  destruct (Byte.to_N b <? 224)%N eqn:E3.
  { destruct s1 as [|b2 s2].
    { exists []. split; [simpl; lia|]. right. intros errors.
      cbn [utf8_decode]. cbv zeta. rewrite E1, E2, E3. reflexivity. }
    destruct (negb (is_continuation (Byte.to_N b2))) eqn:C2.
    { exists (b2 :: s2). split; [simpl; lia|]. right. intros errors.
      rewrite (utf8_decode_unfold errors b (b2 :: s2)).
      cbv zeta. rewrite E1, E2, E3, C2. reflexivity. }
    exists s2. split; [simpl; lia|]. left. eexists. intros errors.
    rewrite (utf8_decode_unfold errors b (b2 :: s2)).
    cbv zeta. rewrite E1, E2, E3, C2. reflexivity. }
  destruct (Byte.to_N b <? 240)%N eqn:E4.
  { destruct s1 as [|b2 s2].
    { exists []. split; [simpl; lia|]. right. intros errors.
      cbn [utf8_decode]. cbv zeta. rewrite E1, E2, E3, E4. reflexivity. }
    destruct (bad_second3 (Byte.to_N b) (Byte.to_N b2)) eqn:C2.
    { exists (b2 :: s2). split; [simpl; lia|]. right. intros errors.
      rewrite (utf8_decode_unfold errors b (b2 :: s2)).
      cbv zeta. rewrite E1, E2, E3, E4, C2. reflexivity. }
    destruct s2 as [|b3 s3].
    { exists []. split; [simpl; lia|]. right. intros errors.
      rewrite (utf8_decode_unfold errors b [b2]).
      cbv zeta. rewrite E1, E2, E3, E4, C2. reflexivity. }
    destruct (negb (is_continuation (Byte.to_N b3))) eqn:C3.
    { exists (b3 :: s3). split; [simpl; lia|]. right. intros errors.
      rewrite (utf8_decode_unfold errors b (b2 :: b3 :: s3)).
      cbv zeta. rewrite E1, E2, E3, E4, C2, C3. reflexivity. }
    exists s3. split; [simpl; lia|]. left. eexists. intros errors.
    rewrite (utf8_decode_unfold errors b (b2 :: b3 :: s3)).
    cbv zeta. rewrite E1, E2, E3, E4, C2, C3. reflexivity. }
  destruct (Byte.to_N b <? 245)%N eqn:E5.
  { destruct s1 as [|b2 s2].
    { exists []. split; [simpl; lia|]. right. intros errors.
      cbn [utf8_decode]. cbv zeta. rewrite E1, E2, E3, E4, E5. reflexivity. }
    destruct (bad_second4 (Byte.to_N b) (Byte.to_N b2)) eqn:C2.
    { exists (b2 :: s2). split; [simpl; lia|]. right. intros errors.
      rewrite (utf8_decode_unfold errors b (b2 :: s2)).
      cbv zeta. rewrite E1, E2, E3, E4, E5, C2. reflexivity. }
    destruct s2 as [|b3 s3].
    { exists []. split; [simpl; lia|]. right. intros errors.
      rewrite (utf8_decode_unfold errors b [b2]).
      cbv zeta. rewrite E1, E2, E3, E4, E5, C2. reflexivity. }
    destruct (negb (is_continuation (Byte.to_N b3))) eqn:C3.
    { exists (b3 :: s3). split; [simpl; lia|]. right. intros errors.
      rewrite (utf8_decode_unfold errors b (b2 :: b3 :: s3)).
      cbv zeta. rewrite E1, E2, E3, E4, E5, C2, C3. reflexivity. }
    destruct s3 as [|b4 s4].
    { exists []. split; [simpl; lia|]. right. intros errors.
      rewrite (utf8_decode_unfold errors b [b2; b3]).
      cbv zeta. rewrite E1, E2, E3, E4, E5, C2, C3. reflexivity. }
    destruct (negb (is_continuation (Byte.to_N b4))) eqn:C4.
    { exists (b4 :: s4). split; [simpl; lia|]. right. intros errors.
      rewrite (utf8_decode_unfold errors b (b2 :: b3 :: b4 :: s4)).
      cbv zeta. rewrite E1, E2, E3, E4, E5, C2, C3, C4. reflexivity. }
    exists s4. split; [simpl; lia|]. left. eexists. intros errors.
    rewrite (utf8_decode_unfold errors b (b2 :: b3 :: b4 :: s4)).
    cbv zeta. rewrite E1, E2, E3, E4, E5, C2, C3, C4. reflexivity. }
  exists s1. split; [simpl; lia|]. right. intros errors.
  cbn [utf8_decode]. cbv zeta. rewrite E1, E2, E3, E4, E5. reflexivity.
Qed.

(** Induction on a byte string along the rounds of the decoder. *)
Lemma decoder_ind (P : list byte -> Prop) :
  P [] ->
  (forall s, s <> [] ->
     (forall rest, length rest < length s -> P rest) -> P s) ->
  forall s, P s.
Proof.
  intros Hnil Hstep.
  assert (H : forall n s, length s <= n -> P s).
  { induction n as [|n IH]; intros s Hlen.
    - destruct s; [assumption | simpl in Hlen; lia].
    - destruct s as [|b s1]; [assumption|].
      apply Hstep; [discriminate|].
      intros rest Hr. apply IH. simpl in Hlen, Hr. lia. }
  intros s. apply (H (length s)). lia.
Qed.

(** With [errors='replace'] the decoder returns a string for every input. *)
Lemma utf8_replace_total (s : list byte) :
  exists t, utf8_decode replace s = Ok t.
Proof.
  induction s as [|s Hne IH] using decoder_ind.
  - exists []. reflexivity.
  - destruct (utf8_decode_step s Hne) as (rest & Hlen & [[c Hc] | He]);
      destruct (IH rest Hlen) as [t Ht].
    + exists (c :: t). rewrite Hc, Ht. reflexivity.
    + exists (REPLACEMENT :: t). rewrite He, Ht. reflexivity.
Qed.

(** Where [strict] decoding succeeds, [replace] returns the same string. *)
Lemma utf8_strict_agrees (s : list byte) :
  forall t, utf8_decode strict s = Ok t -> utf8_decode replace s = Ok t.
Proof.
  induction s as [|s Hne IH] using decoder_ind; intros t.
  - trivial.
  - destruct (utf8_decode_step s Hne) as (rest & Hlen & [[c Hc] | He]).
    + rewrite !Hc. destruct (utf8_decode strict rest) as [t'|e] eqn:E;
        simpl; [|discriminate].
      intros [= <-]. rewrite (IH rest Hlen t' E). reflexivity.
    + rewrite (He strict). discriminate.
Qed.

(** Where [strict] decoding raises, [replace] returns a string that shows
    the placeholder. *)
Lemma utf8_replace_marks (s : list byte) :
  forall e, utf8_decode strict s = Raise e ->
  exists t, utf8_decode replace s = Ok t /\ In REPLACEMENT t.
Proof.
  induction s as [|s Hne IH] using decoder_ind; intros e.
  - discriminate.
  - destruct (utf8_decode_step s Hne) as (rest & Hlen & [[c Hc] | He]).
    + rewrite !Hc. destruct (utf8_decode strict rest) as [t'|e'] eqn:E;
        simpl; [discriminate|].
      intros _. destruct (IH rest Hlen e' E) as (t & Ht & Hin).
      exists (c :: t). rewrite Ht. split; [reflexivity | right; assumption].
    + intros _. rewrite (He replace).
      destruct (utf8_replace_total rest) as [t Ht].
      exists (REPLACEMENT :: t). rewrite Ht.
      split; [reflexivity | left; reflexivity].
Qed.

(** ASCII bytes decode to themselves, whatever the handler. *)
Lemma utf8_decode_ascii errors (s : list byte) :
  Forall (fun b => (Byte.to_N b < 128)%N) s ->
  utf8_decode errors s = Ok (map Byte.to_N s).
Proof.
  induction 1 as [|b s Hb _ IH]; [reflexivity|].
  rewrite utf8_decode_unfold. cbv zeta.
  apply N.ltb_lt in Hb. rewrite Hb, IH. reflexivity.
Qed.

End PyFacts.

(** ** The read/assemble loop *)

Section LoopFacts.

Variable now : nat -> text.
Variable self : ESPMonitor.
Variable show_timestamps : bool.

Local Abbreviation process := (process_lines now self show_timestamps).
Local Abbreviation handle := (dispatch now self show_timestamps).

Lemma process_lines_unfold st :
  process st =
  match split1 LF (buffer st) with
  | (line, Some rest) => process (handle (rstrip CR line) (set_buffer rest st))
  | (_, None) => st
  end.
Proof.
  funelim (process_lines now self show_timestamps st).
  - rewrite e. reflexivity.
  - rewrite e. reflexivity.
Qed.

Lemma dispatch_buffer line st : buffer (handle line st) = buffer st.
Proof.
  unfold dispatch.
  destruct (truthy line && should_display self line); [|reflexivity].
  destruct show_timestamps, (given (log_file self)); reflexivity.
Qed.

(** [dispatch] neither reads nor writes the buffer. *)
Lemma dispatch_set_buffer line b st :
  handle line (set_buffer b st) = set_buffer b (handle line st).
Proof.
  unfold dispatch.
  destruct (truthy line && should_display self line); [|reflexivity].
  destruct show_timestamps, (given (log_file self)); reflexivity.
Qed.

Lemma set_buffer_twice b b' st : set_buffer b (set_buffer b' st) = set_buffer b st.
Proof. reflexivity. Qed.

Lemma set_buffer_same st : set_buffer (buffer st) st = st.
Proof. destruct st; reflexivity. Qed.

(** Induction along the iterations of the inner [while]. *)
Lemma loop_ind (Q : loop_state -> Prop) :
  (forall st,
     (forall st', length (buffer st') < length (buffer st) -> Q st') -> Q st) ->
  forall st, Q st.
Proof.
  intros Hstep.
  assert (H : forall n st, length (buffer st) < n -> Q st).
  { induction n as [|n IH]; intros st Hlen; [lia|].
    apply Hstep. intros st' Hlt. apply IH. lia. }
  intros st. apply (H (S (length (buffer st)))). lia.
Qed.

(** One iteration: a terminated line at the head of the buffer is split
    off, stripped and dispatched. *)
Lemma process_lines_line line rest st :
  contains LF line = false ->
  process (set_buffer (line ++ LF :: rest) st) =
  process (handle (rstrip CR line) (set_buffer rest st)).
Proof.
  intros H. rewrite process_lines_unfold. simpl buffer.
  rewrite split1_at by exact H. reflexivity.
Qed.

(** Without a terminator in the buffer the loop body does not run. *)
Lemma process_lines_pending st :
  contains LF (buffer st) = false -> process st = st.
Proof.
  intros H. rewrite process_lines_unfold, split1_absent by exact H. reflexivity.
Qed.

(** The loop only stops once the buffer holds no terminator. *)
Lemma process_lines_drained st : contains LF (buffer (process st)) = false.
Proof.
  induction st as [st IH] using loop_ind.
  rewrite process_lines_unfold.
  destruct (split1 LF (buffer st)) as [line [rest|]] eqn:E.
  - apply IH. rewrite dispatch_buffer. simpl.
    eapply split1_shorter; eassumption.
  - apply split1_none in E as [_ E]. assumption.
Qed.

(** Text that arrives after the loop has run is handled as if it had been
    in the buffer from the start. *)
Lemma process_lines_append d st :
  process (append d (process st)) = process (append d st).
Proof.
  induction st as [st IH] using loop_ind.
  rewrite (process_lines_unfold st).
  destruct (split1 LF (buffer st)) as [line [rest|]] eqn:E; [|reflexivity].
  rewrite IH by (rewrite dispatch_buffer; simpl; eapply split1_shorter; eassumption).
  rewrite (process_lines_unfold (append d st)). unfold append at 2. simpl buffer.
  rewrite (split1_app _ _ _ _ d E).
  unfold append. rewrite !dispatch_set_buffer. reflexivity.
Qed.

Lemma append_twice d1 d2 st : append d2 (append d1 st) = append (d1 ++ d2) st.
Proof. unfold append. simpl. rewrite app_assoc. reflexivity. Qed.

(** Decoded text delivered in two pieces or in one: same final state. *)
Lemma process_lines_pieces d1 d2 st :
  process (append d2 (process (append d1 st))) = process (append (d1 ++ d2) st).
Proof. rewrite process_lines_append, append_twice. reflexivity. Qed.

(** The [try] body of the read loop always runs to its end: the handler
    for [UnicodeDecodeError] is never entered. *)
Lemma read_chunk_decoded data st :
  exists d, bytes_decode replace data = Ok d /\
            read_chunk now self show_timestamps data st = Ok (process (append d st)).
Proof.
  destruct (utf8_replace_total data) as [d Hd].
  exists d. unfold read_chunk, bytes_decode. rewrite Hd. auto.
Qed.

Lemma read_chunk_ascii data st :
  ascii_only data ->
  read_chunk now self show_timestamps data st =
  Ok (process (append (map Byte.to_N data) st)).
Proof.
  intros H. unfold read_chunk, bytes_decode.
  rewrite (utf8_decode_ascii replace data H). reflexivity.
Qed.

Lemma feed_nil st : feed now self show_timestamps [] st = st.
Proof. reflexivity. Qed.

Lemma feed_cons_ascii data chunks st :
  ascii_only data ->
  feed now self show_timestamps (data :: chunks) st =
  feed now self show_timestamps chunks (process (append (map Byte.to_N data) st)).
Proof.
  intros H. unfold feed. simpl. rewrite (read_chunk_ascii data st H). reflexivity.
Qed.

Lemma feed_ascii chunks : forall st,
  Forall ascii_only chunks ->
  feed now self show_timestamps chunks (process st) =
  process (append (map Byte.to_N (concat chunks)) st).
Proof.
  induction chunks as [|data chunks IH]; intros st H.
  - simpl. rewrite feed_nil. unfold append.
    rewrite app_nil_r, set_buffer_same. reflexivity.
  - inversion H as [|? ? Hd Hc]; subst.
    rewrite (feed_cons_ascii _ _ _ Hd), IH by assumption.
    rewrite append_twice, process_lines_append. simpl concat.
    rewrite map_app. reflexivity.
Qed.

(** The loop stops on the first exception; an interrupt is always reached
    unless an earlier event already ended the loop. *)
Lemma poll_interrupted pre post : forall st,
  exists st' e, poll now self show_timestamps (pre ++ Interrupted :: post) st = (st', Some e).
Proof.
  induction pre as [|ev pre IH]; intros st; simpl.
  - eauto.
  - destruct ev as [data| | |]; eauto.
    destruct (read_chunk_decoded data st) as (d & _ & ->). apply IH.
Qed.

End LoopFacts.

(** ** Effects seen by the two sinks *)

Lemma printed_perform e st :
  printed (perform e st) =
  printed st ++ match e with Print s => [s] | QueuePut _ => [] end.
Proof.
  unfold printed, perform. simpl. rewrite flat_map_app. simpl.
  rewrite app_nil_r. reflexivity.
Qed.

Lemma enqueued_perform e st :
  enqueued (perform e st) =
  enqueued st ++ match e with QueuePut s => [s] | Print _ => [] end.
Proof.
  unfold enqueued, perform. simpl. rewrite flat_map_app. simpl.
  rewrite app_nil_r. reflexivity.
Qed.

Lemma should_display_spec self line :
  should_display self line = true <->
  filter_pattern self = None \/
  exists p, filter_pattern self = Some p /\
            exists pre mid post, line = pre ++ mid ++ post /\ Re.Matches p mid.
Proof.
  unfold should_display. destruct (filter_pattern self) as [p|].
  - rewrite search_spec. split.
    + intros H. right. exists p. auto.
    + intros [H | (q & [= <-] & H)]; [discriminate | assumption].
  - split; auto.
Qed.

Lemma split1_present sep s :
  contains sep s = true -> exists line rest, split1 sep s = (line, Some rest).
Proof.
  intros H. destruct (split1 sep s) as [line [rest|]] eqn:E; eauto.
  apply split1_none in E as [_ E]. congruence.
Qed.

(** After the loop the buffer holds exactly what follows the last
    terminator. *)
Lemma process_lines_keeps_tail now self ts tail : forall st pre,
  buffer st = pre ++ LF :: tail ->
  contains LF tail = false ->
  buffer (process_lines now self ts st) = tail.
Proof.
  induction st as [st IH] using loop_ind.
  intros pre Hb Ht. rewrite process_lines_unfold, Hb.
  destruct (contains LF pre) eqn:Hp.
  - destruct (split1_present LF pre Hp) as (line & rest & E).
    rewrite (split1_app _ _ _ _ (LF :: tail) E).
    apply (IH _) with (pre := rest).
    + rewrite dispatch_buffer. simpl. rewrite Hb.
      apply split1_some in E as [-> _].
      repeat (rewrite ?length_app; simpl). lia.
    + rewrite dispatch_buffer. reflexivity.
    + assumption.
  - rewrite split1_at by exact Hp.
    rewrite process_lines_pending; rewrite dispatch_buffer; simpl; auto.
Qed.

(* ===================================================================== *)
(** * Properties of the read loop *)
(* ===================================================================== *)

(** C1. Chunk boundaries do change the output: each chunk is decoded on its
    own before it reaches the buffer, so the three bytes of U+2705 followed
    by a newline print one check mark when they arrive together and three
    replacement characters when the first byte arrives alone. *)
Theorem split_multibyte_changes_output (now : nat -> text) :
  printed (feed now plain_monitor false [[xe2]; [x9c; x85; x0a]] initial)
    = [[REPLACEMENT; REPLACEMENT; REPLACEMENT]]
  /\ printed (feed now plain_monitor false [[xe2; x9c; x85; x0a]] initial)
    = [[9989%N]]
  /\ concat [[xe2]; [x9c; x85; x0a]] = [xe2; x9c; x85; x0a].
Proof. repeat split; reflexivity. Qed.

Lemma ascii_only_concat chunks :
  Forall ascii_only chunks -> ascii_only (concat chunks).
Proof.
  induction 1 as [|data chunks Hd _ IH]; simpl.
  - constructor.
  - apply Forall_app. split; assumption.
Qed.

(** Chunking is invisible on ASCII input: however the bytes are split, the
    loop ends in the same state (same lines printed and enqueued, same
    pending buffer) as when they arrive in one chunk. *)
Theorem chunking_invariant_ascii now self ts (chunks : list (list byte)) st :
  Forall ascii_only chunks ->
  contains LF (buffer st) = false ->
  feed now self ts chunks st = feed now self ts [concat chunks] st.
Proof.
  intros Hc Hst.
  rewrite <- (process_lines_pending now self ts st Hst) at 1.
  rewrite (feed_ascii now self ts chunks st Hc).
  rewrite (feed_cons_ascii now self ts _ [] st (ascii_only_concat chunks Hc)).
  rewrite feed_nil. reflexivity.
Qed.

Lemma chunking_invariant_ascii_witness :
  feed sample_clock plain_monitor true
       [bytes_of "bo"; bytes_of "ot" ++ [x0d]; [x0a] ++ bytes_of "OK"] initial
  = feed sample_clock plain_monitor true
       [concat [bytes_of "bo"; bytes_of "ot" ++ [x0d]; [x0a] ++ bytes_of "OK"]] initial.
Proof.
  apply chunking_invariant_ascii.
  - repeat constructor.
  - reflexivity.
Defined.

(** C2. Whenever the filter compiles and [--command] is absent, the
    process exits with status 0 both when the connection cannot be opened
    and when the operator interrupts the loop: [main] drops the [False]
    that [monitor] returns on a failed connection. *)
Theorem main_exit_status_zero re_compile now args m :
  __init__ re_compile (arg_port args) (arg_baudrate args)
           (arg_log args) (arg_filter args) = Ok m ->
  given (arg_command args) = false ->
  (forall events,
     option_map exit_status (main re_compile now args false events) = Some 0%Z)
  /\ (forall pre post,
     option_map exit_status
       (main re_compile now args true (pre ++ Interrupted :: post)) = Some 0%Z).
Proof.
  intros Hinit Hcmd. unfold main. rewrite Hinit, Hcmd. split.
  - intros events. reflexivity.
  - intros pre post. unfold monitor. simpl negb at 1. cbv iota.
    destruct (poll_interrupted now m (negb (arg_no_timestamps args)) pre post initial)
      as (st' & e & ->).
    reflexivity.
Qed.

Lemma main_exit_status_zero_witness :
  (forall events,
     option_map exit_status
       (main compile_plain sample_clock plain_args false events) = Some 0%Z)
  /\ (forall pre post,
     option_map exit_status
       (main compile_plain sample_clock plain_args true
             (pre ++ Interrupted :: post)) = Some 0%Z).
Proof.
  apply (main_exit_status_zero compile_plain sample_clock plain_args console_monitor);
    reflexivity.
Defined.

(** C5 (as stated, refuted). A line made of a terminator only produces no
    record at all: nothing is printed and nothing is enqueued, and the
    blank line between two others leaves no trace. *)
Lemma blank_line_emits_nothing :
  effects (feed sample_clock plain_monitor true [CRLF] initial) = []
  /\ printed (feed sample_clock plain_monitor false
                   [bytes_of "boot" ++ CRLF ++ CRLF ++ bytes_of "OK" ++ CRLF] initial)
     = [str "boot"; str "OK"].
Proof. split; reflexivity. Qed.

(** C5 (amended). A line that is empty once its carriage returns are
    stripped is skipped: the loop consumes it and goes on with the rest of
    the buffer, performing no effect for it. *)
Theorem blank_line_skipped now self ts (n : nat) (rest : text) st :
  process_lines now self ts (set_buffer (repeat CR n ++ LF :: rest) st)
  = process_lines now self ts (set_buffer rest st).
Proof.
  rewrite process_lines_line by (apply contains_repeat; discriminate).
  rewrite rstrip_repeat. reflexivity.
Qed.

(** C6 (as stated, refuted). With no filter configured an empty line is
    still not forwarded, and without a log file a line that passes is
    printed but not enqueued. *)
Lemma unfiltered_line_not_forwarded :
  filter_pattern plain_monitor = None
  /\ dispatch sample_clock plain_monitor true [] initial = initial
  /\ filter_pattern console_monitor = None
  /\ effects (dispatch sample_clock console_monitor false (str "boot") initial)
     = [Print (str "boot")].
Proof. repeat split; reflexivity. Qed.

(** C6 (amended). For every non-empty line: it passes exactly when no
    filter is configured or the pattern matches somewhere in it; a line
    that passes is printed once, and enqueued (with a newline) exactly when
    a log file is configured; a line that does not pass reaches neither
    sink.  With filter [ERR] and a log file, the lines boot, ERR: fail, OK
    send only ERR: fail to the console and to the queue. *)
Theorem filter_gates_both_sinks :
  (forall now self ts line st,
     line <> [] ->
     let formatted := format_line now line ts (clock st) in
     (should_display self line = true <->
        filter_pattern self = None \/
        exists p, filter_pattern self = Some p /\
                  exists pre mid post, line = pre ++ mid ++ post /\ Re.Matches p mid)
     /\ (should_display self line = true ->
           printed (dispatch now self ts line st) = printed st ++ [formatted]
           /\ enqueued (dispatch now self ts line st)
              = enqueued st ++ (if given (log_file self)
                                then [formatted ++ [LF]] else []))
     /\ (should_display self line = false ->
           dispatch now self ts line st = st))
  /\ __init__ compile_plain (str "COM3") 115200 (Some (str "esp.log"))
              (Some (str "ERR")) = Ok err_monitor
  /\ (forall now ts,
        let st := feed now err_monitor ts
                    [bytes_of "boot" ++ [x0a] ++ bytes_of "ERR: fail" ++ [x0a]
                       ++ bytes_of "OK" ++ [x0a]] initial in
        printed st = [format_line now (str "ERR: fail") ts 0]
        /\ enqueued st = [format_line now (str "ERR: fail") ts 0 ++ [LF]]).
Proof.
  split; [|split; [reflexivity|]].
  - intros now self ts line st Hne formatted.
    split; [apply should_display_spec|].
    assert (Ht : truthy line = true) by (destruct line; [contradiction | reflexivity]).
    unfold dispatch. rewrite Ht. simpl andb. split; intros ->; [|reflexivity].
    subst formatted.
    destruct ts, (given (log_file self));
      rewrite ?printed_perform, ?enqueued_perform, ?app_nil_r; auto;
      rewrite <- app_assoc; auto.
  - intros now [|]; split; reflexivity.
Qed.

Lemma filter_gates_both_sinks_witness :
  let formatted := format_line sample_clock (str "ERR: fail") true 0 in
  (should_display err_monitor (str "ERR: fail") = true <->
     filter_pattern err_monitor = None \/
     exists p, filter_pattern err_monitor = Some p /\
               exists pre mid post,
                 str "ERR: fail" = pre ++ mid ++ post /\ Re.Matches p mid)
  /\ (should_display err_monitor (str "ERR: fail") = true ->
        printed (dispatch sample_clock err_monitor true (str "ERR: fail") initial)
        = printed initial ++ [formatted]
        /\ enqueued (dispatch sample_clock err_monitor true (str "ERR: fail") initial)
           = enqueued initial ++ (if given (log_file err_monitor)
                                  then [formatted ++ [LF]] else []))
  /\ (should_display err_monitor (str "ERR: fail") = false ->
        dispatch sample_clock err_monitor true (str "ERR: fail") initial = initial).
Proof.
  apply (proj1 filter_gates_both_sinks sample_clock err_monitor true
               (str "ERR: fail") initial).
  discriminate.
Defined.

(** C7 (as stated, refuted). A line that arrives as x followed by two
    carriage returns and a newline is printed as x: both carriage returns
    go, none is kept. *)
Lemma double_cr_both_stripped :
  printed (feed sample_clock plain_monitor false
                [bytes_of "x" ++ [x0d; x0d; x0a]] initial) = [str "x"]
  /\ rstrip CR (str "x" ++ [CR; CR]) = str "x".
Proof. split; reflexivity. Qed.

(** C7 (amended). [rstrip] removes the whole run of carriage returns at
    the end of the line and nothing else: what is left is the line without
    that run and does not end in a carriage return; content that does not
    itself end in a carriage return is dispatched unchanged, however many
    carriage returns precede the newline. *)
Theorem rstrip_strips_every_cr :
  (forall line, exists n,
      line = rstrip CR line ++ repeat CR n
      /\ forall t, rstrip CR line <> t ++ [CR])
  /\ (forall now self ts content n rest st,
        contains LF content = false ->
        (forall t, content <> t ++ [CR]) ->
        process_lines now self ts
          (set_buffer (content ++ repeat CR n ++ LF :: rest) st)
        = process_lines now self ts
            (dispatch now self ts content (set_buffer rest st))).
Proof.
  split.
  - intros line. destruct (rstrip_decompose CR line) as [n Hn].
    exists n. split; [assumption | apply rstrip_no_trailing].
  - intros now self ts content n rest st Hlf Hcr.
    rewrite app_assoc.
    rewrite process_lines_line.
    + rewrite rstrip_app_repeat, rstrip_fixed by assumption. reflexivity.
    + rewrite contains_app, Hlf. apply contains_repeat. discriminate.
Qed.

Lemma rstrip_strips_every_cr_witness :
  process_lines sample_clock plain_monitor false
    (set_buffer (str "x" ++ repeat CR 2 ++ LF :: str "y") initial)
  = process_lines sample_clock plain_monitor false
      (dispatch sample_clock plain_monitor false (str "x")
                (set_buffer (str "y") initial)).
Proof.
  apply (proj2 rstrip_strips_every_cr).
  - reflexivity.
  - intros [|c [|c' t]]; discriminate.
Defined.

(** C8. Text without a terminator is kept in the buffer and triggers no
    effect; after any pass of the loop the buffer is exactly what follows
    the last terminator; the bytes boot CR LF OK CR LF incomplete, with no
    filter, print boot and OK and leave incomplete pending, and it is
    printed once a later chunk brings the terminator. *)
Theorem partial_line_stays_pending :
  (forall now self ts d st,
     contains LF (buffer st ++ d) = false ->
     process_lines now self ts (append d st) = append d st)
  /\ (forall now self ts pre tail st,
     contains LF tail = false ->
     buffer (process_lines now self ts (set_buffer (pre ++ LF :: tail) st)) = tail)
  /\ (forall now port baud log q ts,
     let self := mkESPMonitor port baud log None false q in
     let st := feed now self ts [boot_ok_incomplete] initial in
     printed st = [format_line now (str "boot") ts 0;
                   format_line now (str "OK") ts (if ts then 1 else 0)]
     /\ buffer st = str "incomplete"
     /\ printed (feed now self ts [CRLF] st)
        = printed st ++ [format_line now (str "incomplete") ts (if ts then 2 else 0)]).
Proof.
  split; [|split].
  - intros now self ts d st H. apply process_lines_pending. exact H.
  - intros now self ts pre tail st H.
    apply process_lines_keeps_tail with (pre := pre); [reflexivity | exact H].
  - intros now port baud log q ts self st. subst st self.
    destruct ts, log as [[|c l]|]; repeat split; reflexivity.
Qed.

Lemma partial_line_stays_pending_witness :
  process_lines sample_clock plain_monitor true
                (append (str "incomplete") initial)
  = append (str "incomplete") initial
  /\ buffer (process_lines sample_clock plain_monitor true
               (set_buffer (str "boot" ++ LF :: str "incomplete") initial))
     = str "incomplete".
Proof.
  split.
  - apply (proj1 partial_line_stays_pending). reflexivity.
  - apply (proj1 (proj2 partial_line_stays_pending)). reflexivity.
Defined.

(** C9. Decoding with [errors='replace'] returns a string for every byte
    sequence: the string [strict] decoding would give when the bytes are
    well formed, and otherwise one that shows U+FFFD; the loop then runs
    the line assembly on it, so the [UnicodeDecodeError] handler is never
    entered. *)
Theorem decode_replace_never_raises now self ts (data : list byte) st :
  exists d,
    bytes_decode replace data = Ok d
    /\ (forall t, bytes_decode strict data = Ok t -> d = t)
    /\ (forall e, bytes_decode strict data = Raise e -> In REPLACEMENT d)
    /\ read_chunk now self ts data st
       = Ok (process_lines now self ts (set_buffer (buffer st ++ d) st)).
Proof.
  destruct (read_chunk_decoded now self ts data st) as (d & Hd & Hr).
  exists d. repeat split; try assumption.
  - intros t Ht. apply utf8_strict_agrees in Ht.
    unfold bytes_decode in Hd. congruence.
  - intros e He. apply utf8_replace_marks in He as (t & Ht & Hin).
    unfold bytes_decode in Hd. congruence.
Qed.

(** C10. [should_display] is an unanchored search: with a pattern it holds
    exactly when some substring of the line matches, without one it always
    holds; a pattern given as [None] or as the empty string configures no
    filter; and the search differs from a match at the start and from a
    full match, as ERR against "boot ERR!" shows. *)
Theorem should_display_is_unanchored_search :
  (forall self line,
     should_display self line = true <->
     filter_pattern self = None \/
     exists p, filter_pattern self = Some p /\
               exists pre mid post, line = pre ++ mid ++ post /\ Re.Matches p mid)
  /\ (forall re_compile port baud log,
        (exists m, __init__ re_compile port baud log None = Ok m
                   /\ filter_pattern m = None)
        /\ (exists m, __init__ re_compile port baud log (Some []) = Ok m
                      /\ filter_pattern m = None))
  /\ should_display err_monitor (str "boot ERR!") = true
  /\ Re.match_ (Re.literal (str "ERR")) (str "boot ERR!") = false
  /\ Re.fullmatch (Re.literal (str "ERR")) (str "boot ERR!") = false.
Proof.
  split; [exact should_display_spec|].
  split; [|repeat split; reflexivity].
  intros re_compile port baud log. split; eexists; split; reflexivity.
Qed.

Section ThreadFacts.
Import Threads.

Lemma run_app s1 : forall s0 s2 sched,
  run s1 s0 = Some s2 -> run (s1 ++ sched) s0 = run sched s2.
Proof.
  induction s1 as [|a s1 IH]; intros s0 s2 sched; simpl.
  - intros [= ->]. reflexivity.
  - destruct (step a s0) as [s'|]; [apply IH | discriminate].
Qed.

Lemma reachable_init : reachable init.
Proof. exists []. reflexivity. Qed.

Lemma reachable_step a s s' :
  reachable s -> step a s = Some s' -> reachable s'.
Proof.
  intros [sched H] Hs. exists (sched ++ [a]).
  rewrite (run_app sched init s [a] H). simpl. rewrite Hs. reflexivity.
Qed.

(** Induction over the reachable states. *)
Lemma reachable_ind (Q : system -> Prop) :
  Q init ->
  (forall a s s', Q s -> step a s = Some s' -> Q s') ->
  forall s, reachable s -> Q s.
Proof.
  intros Hinit Hstep s [sched H].
  assert (G : forall sched s0, Q s0 -> run sched s0 = Some s -> Q s).
  { clear H sched. induction sched as [|a sched IH]; intros s0 H0; simpl.
    - intros [= <-]. assumption.
    - destruct (step a s0) as [s1|] eqn:E; [|discriminate].
      apply IH. exact (Hstep a s0 s1 H0 E). }
  exact (G sched init Hinit H).
Qed.

Ltac step_cases a s H :=
  unfold step in H;
  destruct a; destruct (main_at s) eqn:?; destruct (writer_at s) eqn:?;
  try discriminate H.

(** The queue stays the unbounded one made by [__init__]. *)
Lemma queue_stays_unbounded s : reachable s -> maxsize (log_queue s) = 0%Z.
Proof.
  intros H. induction H as [|a s s' IH Hs] using reachable_ind; [reflexivity|].
  step_cases a s Hs;
    try (injection Hs as <-; simpl; assumption);
    try (unfold put in Hs; destruct (full (log_queue s)); [discriminate|];
         injection Hs as <-; simpl; assumption);
    try (unfold get in Hs; destruct (items (log_queue s)); [discriminate|];
         injection Hs as <-; simpl; assumption);
    try (unfold get in Hs; destruct (items (log_queue s)); [|discriminate];
         injection Hs as <-; simpl; assumption).
Qed.

(** An unbounded queue is never full: [put] appends at once. *)
Lemma put_unbounded q e :
  maxsize q = 0%Z -> put q e = Some (mkQueue 0 (items q ++ [e])).
Proof.
  intros H. unfold put, full. rewrite H. reflexivity.
Qed.


Lemma run_puts (e : text) n : forall s,
  main_at s = MPolling -> maxsize (log_queue s) = 0%Z ->
  exists s', run (repeat (MainPut e) n) s = Some s'
             /\ qsize s' = qsize s + n.
Proof.
  induction n as [|n IH]; intros s Hm Hq; simpl.
  - exists s. split; [reflexivity | lia].
  - unfold step. rewrite Hm, (put_unbounded _ e Hq).
    match goal with |- context [run _ ?s1] =>
      destruct (IH s1 eq_refl eq_refl) as (s' & Hr & Hl) end.
    exists s'. split; [assumption|].
    rewrite Hl. unfold qsize. simpl. rewrite length_app. simpl. lia.
Qed.


End ThreadFacts.

(* ===================================================================== *)
(** * Properties of the log queue and of shutdown *)
(* ===================================================================== *)

(** C3. Shutdown does not drain the queue.  The log thread waits in [get];
    the read loop enqueues two entries; the log thread writes the first;
    the loop is stopped, which clears [running]; the log thread tests
    [running], leaves its loop and closes the file; [join] returns and the
    process exits.  The second entry, enqueued before the stop, is still in
    the queue and not in the log. *)
Theorem shutdown_loses_queued_entries (e1 e2 : text) :
  exists s,
    Threads.run [Threads.WriterTest; Threads.MainPut e1; Threads.MainPut e2;
                 Threads.WriterGet; Threads.MainStop; Threads.WriterTest;
                 Threads.MainJoin] Threads.init = Some s
    /\ Threads.main_at s = Threads.MExited
    /\ Threads.writer_at s = Threads.WDone
    /\ Threads.produced s = [e1; e2]
    /\ Threads.log s = [e1]
    /\ items (Threads.log_queue s) = [e2].
Proof.
  exists (Threads.mkSystem false (mkQueue 0 [e2]) [e1]
                           Threads.MExited Threads.WDone [e1; e2]).
  repeat split; reflexivity.
Qed.

(** C4 (as stated, refuted). No capacity bounds the queue over the
    reachable states, and the queue the monitor creates is never full. *)
Lemma log_queue_has_no_capacity :
  ((exists cap, forall s, Threads.reachable s -> Threads.qsize s <= cap) <-> False)
  /\ maxsize (Threads.log_queue Threads.init) = 0%Z
  /\ full (mkQueue 0 [str "a"; str "b"; str "c"]) = false.
Proof.
  split; [|split; reflexivity].
  split; [|contradiction].
  intros [cap H].
  destruct (run_puts [] (S cap) Threads.init eq_refl eq_refl) as (s & Hr & Hl).
  assert (Hs : Threads.reachable s) by (eexists; exact Hr).
  specialize (H s Hs). rewrite Hl in H. unfold Threads.qsize in H. simpl in H. lia.
Qed.

(** C4 (amended). The log queue is unbounded: in every reachable state its
    [maxsize] is 0, so [put] never waits and never drops, it appends the
    entry at once; the read loop can always enqueue; and every length is
    reached by the queue in some reachable state. *)
Theorem log_queue_unbounded :
  (forall s, Threads.reachable s ->
     maxsize (Threads.log_queue s) = 0%Z
     /\ forall e, put (Threads.log_queue s) e
                  = Some (mkQueue 0 (items (Threads.log_queue s) ++ [e])))
  /\ (forall s e, Threads.reachable s -> Threads.main_at s = Threads.MPolling ->
        exists s', Threads.step (Threads.MainPut e) s = Some s'
                   /\ items (Threads.log_queue s') = items (Threads.log_queue s) ++ [e]
                   /\ Threads.produced s' = Threads.produced s ++ [e])
  /\ (forall n, exists s, Threads.reachable s /\ Threads.qsize s = n).
Proof.
  split; [|split].
  - intros s Hs. pose proof (queue_stays_unbounded s Hs) as Hq.
    split; [assumption|]. intros e. apply put_unbounded. assumption.
  - intros s e Hs Hm. pose proof (queue_stays_unbounded s Hs) as Hq.
    unfold Threads.step. rewrite Hm, (put_unbounded _ e Hq).
    eexists. repeat split.
  - intros n.
    destruct (run_puts [] n Threads.init eq_refl eq_refl) as (s & Hr & Hl).
    exists s. split; [eexists; exact Hr | exact Hl].
Qed.

Lemma log_queue_unbounded_witness :
  maxsize (Threads.log_queue Threads.init) = 0%Z
  /\ forall e, put (Threads.log_queue Threads.init) e
               = Some (mkQueue 0 (items (Threads.log_queue Threads.init) ++ [e])).
Proof.
  apply (proj1 log_queue_unbounded). apply reachable_init.
Defined.

(* ===================================================================== *)
(** * The line loop as a function of its input *)
(* ===================================================================== *)

Lemma terminated_split_some s : forall line rest,
  split1 LF s = (line, Some rest) ->
  terminated s = (line :: fst (terminated rest), snd (terminated rest)).
Proof.
  induction s as [|c s IH]; intros line rest; simpl.
  - discriminate.
  - destruct (c =? LF)%N.
    + intros [= <- <-]. destruct (terminated s); reflexivity.
    + destruct (split1 LF s) as [l t] eqn:E. intros [= <- ->].
      rewrite (IH l rest eq_refl). reflexivity.
Qed.

Lemma terminated_split_none s line :
  split1 LF s = (line, None) -> terminated s = ([], s).
Proof.
  revert line. induction s as [|c s IH]; intros line; simpl.
  - reflexivity.
  - destruct (c =? LF)%N; [discriminate|].
    destruct (split1 LF s) as [l t] eqn:E. intros [= <- ->].
    rewrite (IH l eq_refl). reflexivity.
Qed.

Lemma stamp_plain now lines k : stamp now false k lines = lines.
Proof.
  revert k. induction lines as [|l lines IH]; intros k; simpl.
  - reflexivity.
  - rewrite IH. reflexivity.
Qed.

Lemma stamp_length now ts lines : forall k,
  length (stamp now ts k lines) = length lines.
Proof.
  induction lines as [|l lines IH]; intros k; simpl; [|rewrite IH]; reflexivity.
Qed.

Section LoopRefinement.

Variable now : nat -> text.
Variable self : ESPMonitor.
Variable ts : bool.

Local Abbreviation pass := (fun l => truthy l && should_display self l).

Lemma dispatch_printed line st :
  printed (dispatch now self ts line st)
  = printed st ++ (if pass line then [format_line now line ts (clock st)] else []).
Proof.
  unfold dispatch. destruct (truthy line && should_display self line).
  - destruct ts, (given (log_file self));
      rewrite ?printed_perform, ?app_nil_r; reflexivity.
  - rewrite app_nil_r. reflexivity.
Qed.

Lemma dispatch_enqueued line st :
  enqueued (dispatch now self ts line st)
  = enqueued st ++ (if pass line && given (log_file self)
                    then [log_entry (format_line now line ts (clock st))] else []).
Proof.
  unfold dispatch, log_entry. destruct (truthy line && should_display self line).
  - destruct ts, (given (log_file self)); simpl andb; cbv iota;
      rewrite ?enqueued_perform, ?app_nil_r; try reflexivity;
      rewrite <- app_assoc; reflexivity.
  - rewrite app_nil_r. reflexivity.
Qed.

Lemma dispatch_clock line st :
  clock (dispatch now self ts line st)
  = if pass line && ts then S (clock st) else clock st.
Proof.
  unfold dispatch. destruct (truthy line && should_display self line).
  - destruct ts, (given (log_file self)); reflexivity.
  - reflexivity.
Qed.

Lemma forwarded_cons line rest s :
  split1 LF s = (line, Some rest) ->
  forwarded self s
  = (if pass (rstrip CR line) then [rstrip CR line] else []) ++ forwarded self rest.
Proof.
  intros E. unfold forwarded. rewrite (terminated_split_some s line rest E).
  simpl. destruct (truthy (rstrip CR line) && should_display self (rstrip CR line));
    reflexivity.
Qed.

Lemma forwarded_none line s :
  split1 LF s = (line, None) -> forwarded self s = [].
Proof.
  intros E. unfold forwarded. rewrite (terminated_split_none s line E). reflexivity.
Qed.

(** One pass of [while '\n' in buffer] prints exactly the forwarded lines of
    the buffer, formatted with consecutive clock readings, hands the same
    formatted lines with a newline to the queue when a log file is
    configured, reads the clock once per printed line when timestamps are
    shown, and leaves the text after the last newline in the buffer. *)
Theorem process_lines_refines st :
  let lines := forwarded self (buffer st) in
  let shown := stamp now ts (clock st) lines in
  printed (process_lines now self ts st) = printed st ++ shown
  /\ enqueued (process_lines now self ts st)
     = enqueued st ++ (if given (log_file self) then map log_entry shown else [])
  /\ clock (process_lines now self ts st)
     = clock st + (if ts then length lines else 0)
  /\ buffer (process_lines now self ts st) = snd (terminated (buffer st)).
Proof.
  induction st as [st IH] using loop_ind. cbv zeta.
  rewrite process_lines_unfold.
  destruct (split1 LF (buffer st)) as [line [rest|]] eqn:E.
  - set (st1 := dispatch now self ts (rstrip CR line) (set_buffer rest st)).
    assert (Hb : buffer st1 = rest)
      by (unfold st1; rewrite dispatch_buffer; reflexivity).
    assert (Hlt : length (buffer st1) < length (buffer st))
      by (rewrite Hb; eapply split1_shorter; eassumption).
    destruct (IH st1 Hlt) as (Hp & Hq & Hc & Hbuf). cbv zeta in *.
    rewrite Hp, Hq, Hc, Hbuf, Hb. clear Hp Hq Hc Hbuf.
    rewrite (forwarded_cons line rest (buffer st) E).
    rewrite (terminated_split_some (buffer st) line rest E).
    unfold st1. rewrite dispatch_printed, dispatch_enqueued, dispatch_clock.
    simpl clock. simpl printed. simpl enqueued.
    change (printed (set_buffer rest st)) with (printed st).
    change (enqueued (set_buffer rest st)) with (enqueued st).
    destruct (truthy (rstrip CR line) && should_display self (rstrip CR line));
      destruct ts, (given (log_file self)); simpl;
      rewrite <- ?app_assoc, ?app_nil_r; simpl;
      repeat split; try reflexivity; lia.
  - rewrite (forwarded_none line (buffer st) E).
    rewrite (terminated_split_none (buffer st) line E). simpl.
    destruct (given (log_file self)), ts; rewrite ?app_nil_r;
      repeat split; try reflexivity; lia.
Qed.

End LoopRefinement.

(** ** A whole session *)

Section SessionFacts.

Variable now : nat -> text.
Variable self : ESPMonitor.
Variable ts : bool.

Lemma read_chunk_is_decoded data st :
  read_chunk now self ts data st
  = Ok (process_lines now self ts (append (decoded data) st)).
Proof.
  destruct (read_chunk_decoded now self ts data st) as (d & Hd & ->).
  unfold decoded. rewrite Hd. reflexivity.
Qed.

Lemma feed_cons data chunks st :
  feed now self ts (data :: chunks) st
  = feed now self ts chunks (process_lines now self ts (append (decoded data) st)).
Proof. unfold feed. simpl. rewrite read_chunk_is_decoded. reflexivity. Qed.

(** Feeding chunks after a pass of the loop is one pass over the buffer
    extended by the decoded chunks. *)
Lemma feed_is_one_pass chunks : forall st,
  feed now self ts chunks (process_lines now self ts st)
  = process_lines now self ts (append (flat_map decoded chunks) st).
Proof.
  induction chunks as [|data chunks IH]; intros st.
  - simpl. rewrite feed_nil. unfold append.
    rewrite app_nil_r, set_buffer_same. reflexivity.
  - rewrite feed_cons, IH, append_twice, process_lines_append. reflexivity.
Qed.

(** The output of a session depends on the chunks only through the
    concatenation of their decodings: the lines printed are its forwarded
    lines, formatted with clock readings 0, 1, 2, ...; the queue receives
    the same lines with a newline when a log file is configured and nothing
    otherwise; the buffer is left with the text after the last newline. *)
Theorem feed_refines (chunks : list (list byte)) :
  let received := flat_map decoded chunks in
  let shown := stamp now ts 0 (forwarded self received) in
  let st := feed now self ts chunks initial in
  printed st = shown
  /\ enqueued st = (if given (log_file self) then map log_entry shown else [])
  /\ clock st = (if ts then length shown else 0)
  /\ buffer st = snd (terminated received).
Proof.
  cbv zeta.
  rewrite <- (process_lines_pending now self ts initial eq_refl) at 1 2 3 4.
  rewrite feed_is_one_pass.
  destruct (process_lines_refines now self ts
              (append (flat_map decoded chunks) initial)) as (Hp & Hq & Hc & Hb).
  cbv zeta in *. rewrite Hp, Hq, Hc, Hb. simpl.
  rewrite stamp_length. destruct (given (log_file self)); auto.
Qed.

End SessionFacts.

Lemma feed_from_initial now self ts (chunks : list (list byte)) :
  feed now self ts chunks initial
  = process_lines now self ts (append (flat_map decoded chunks) initial).
Proof.
  rewrite <- (process_lines_pending now self ts initial eq_refl) at 1.
  apply feed_is_one_pass.
Qed.

Lemma terminated_no_newline s :
  Forall (fun l => contains LF l = false) (fst (terminated s))
  /\ contains LF (snd (terminated s)) = false.
Proof.
  induction s as [|c s [IHl IHt]].
  - split; [constructor | reflexivity].
  - cbn [terminated]. destruct (terminated s) as [ls tail].
    cbn [fst snd] in IHl, IHt.
    destruct (N.eqb_spec c LF) as [->|Hne]; cbn [fst snd].
    + split; [apply Forall_cons; [reflexivity | exact IHl] | exact IHt].
    + assert (Hc : (LF =? c)%N = false) by (apply N.eqb_neq; congruence).
      assert (Hcons : forall t, contains LF t = false -> contains LF (c :: t) = false).
      { intros t Ht. unfold contains in *. cbn [existsb]. rewrite Hc. exact Ht. }
      destruct ls as [|l ls]; cbn [fst snd].
      * split; [apply Forall_nil | apply Hcons; exact IHt].
      * inversion IHl as [|? ? Hl Hls]; subst. split; [|exact IHt].
        apply Forall_cons; [apply Hcons; exact Hl | exact Hls].
Qed.

Lemma rstrip_keeps_absent c d l :
  contains d l = false -> contains d (rstrip c l) = false.
Proof.
  intros H. destruct (rstrip_decompose c l) as [n Hn].
  rewrite Hn, contains_app in H. apply orb_false_iff in H as [H _]. exact H.
Qed.

Lemma forwarded_clean self s : Forall clean_line (forwarded self s).
Proof.
  unfold forwarded. apply Forall_forall. intros l Hl.
  apply filter_In in Hl as [Hin Hpass].
  apply andb_true_iff in Hpass as [Ht _].
  apply in_map_iff in Hin as (raw & <- & Hraw).
  pose proof (proj1 (terminated_no_newline s)) as Hn.
  rewrite Forall_forall in Hn. specialize (Hn raw Hraw).
  repeat split.
  - intros E. rewrite E in Ht. discriminate.
  - apply rstrip_keeps_absent. exact Hn.
  - apply rstrip_no_trailing.
Qed.

(** Whatever bytes arrive, in whatever chunks: with timestamps off every
    line printed is non-empty, holds no newline and does not end in a
    carriage return, and the pending buffer never holds a newline. *)
Theorem printed_lines_clean now self ts (chunks : list (list byte)) :
  Forall clean_line (printed (feed now self false chunks initial))
  /\ contains LF (buffer (feed now self ts chunks initial)) = false.
Proof.
  rewrite !feed_from_initial. split.
  - rewrite (proj1 (process_lines_refines now self false _)).
    simpl. rewrite stamp_plain. apply forwarded_clean.
  - apply process_lines_drained.
Qed.

Lemma filter_twice {A : Type} (f g : A -> bool) l :
  filter f (filter g l) = filter (fun x => g x && f x) l.
Proof.
  induction l as [|x l IH]; simpl; [reflexivity|].
  destruct (g x); simpl; [destruct (f x)|]; rewrite ?IH; reflexivity.
Qed.

Lemma forwarded_without_filter self s :
  forwarded self s = filter (should_display self) (forwarded (without_filter self) s).
Proof.
  unfold forwarded. rewrite filter_twice. apply filter_ext.
  intros l. unfold should_display at 2. simpl. rewrite andb_true_r. reflexivity.
Qed.

(** Filtering only removes lines: with timestamps off, the lines printed
    with a filter are those of the unfiltered session that the filter
    accepts, in the same order; the pending buffer does not depend on the
    filter. *)
Theorem filter_only_removes_lines now self (chunks : list (list byte)) :
  printed (feed now self false chunks initial)
  = filter (should_display self)
           (printed (feed now (without_filter self) false chunks initial))
  /\ buffer (feed now self false chunks initial)
     = buffer (feed now (without_filter self) false chunks initial).
Proof.
  rewrite !feed_from_initial.
  destruct (process_lines_refines now self false
              (append (flat_map decoded chunks) initial)) as (Hp & _ & _ & Hb).
  destruct (process_lines_refines now (without_filter self) false
              (append (flat_map decoded chunks) initial)) as (Hp' & _ & _ & Hb').
  cbv zeta in *. rewrite Hp, Hp', Hb, Hb'. simpl. rewrite !stamp_plain.
  split; [apply forwarded_without_filter | reflexivity].
Qed.

(* ===================================================================== *)
(** * More on the two threads *)
(* ===================================================================== *)

Section ShutdownFacts.
Import Threads.

Lemma step_after_stop a s s1 :
  running s = false -> step a s = Some s1 ->
  running s1 = false
  /\ exists e, log s1 = log s ++ e
               /\ length e + last_writes (writer_at s1) <= last_writes (writer_at s).
Proof.
  intros Hr Hs. unfold step in Hs.
  destruct a; destruct (main_at s) eqn:Hm; destruct (writer_at s) eqn:Hw;
    try discriminate Hs;
    try (injection Hs as <-; simpl; rewrite ?Hr, ?Hw; split; [reflexivity|];
         exists []; rewrite app_nil_r; simpl; split; [reflexivity | lia]);
    try (unfold put in Hs; destruct (full (log_queue s)); [discriminate|];
         injection Hs as <-; simpl; rewrite ?Hr, ?Hw; split; [reflexivity|];
         exists []; rewrite app_nil_r; simpl; split; [reflexivity | lia]);
    try (unfold get in Hs; destruct (items (log_queue s)) as [|e l]; [discriminate|];
         injection Hs as <-; simpl; rewrite ?Hr; split; [reflexivity|];
         exists [e]; simpl; split; [reflexivity | lia]);
    try (unfold get in Hs; destruct (items (log_queue s)) as [|e l]; [|discriminate];
         injection Hs as <-; simpl; rewrite ?Hr; split; [reflexivity|];
         exists []; rewrite app_nil_r; simpl; split; [reflexivity | lia]).
Qed.

(** Once [running] has been cleared it stays cleared, the log only grows,
    and the log thread writes at most one more entry, and only if it was
    already waiting in [get]: whatever else is queued is never written. *)
Theorem at_most_one_write_after_stop sched : forall s s',
  running s = false ->
  run sched s = Some s' ->
  running s' = false
  /\ exists written, log s' = log s ++ written
                     /\ length written <= last_writes (writer_at s).
Proof.
  induction sched as [|a sched IH]; intros s s' Hr; simpl.
  - intros [= <-]. split; [assumption|]. exists []. rewrite app_nil_r.
    split; [reflexivity | simpl; lia].
  - destruct (step a s) as [s1|] eqn:E; [|discriminate]. intros Hrun.
    destruct (step_after_stop a s s1 Hr E) as (Hr1 & e & He & Hle).
    destruct (IH s1 s' Hr1 Hrun) as (Hr' & w & Hw & Hlw).
    split; [assumption|]. exists (e ++ w).
    rewrite Hw, He, app_assoc. split; [reflexivity|].
    rewrite length_app. lia.
Qed.

Lemma at_most_one_write_after_stop_witness :
  let s := mkSystem false (mkQueue 0 [str "b"; str "c"]) [str "a"]
                    MJoining WGet [str "a"; str "b"; str "c"] in
  let s' := mkSystem false (mkQueue 0 [str "c"]) [str "a"; str "b"]
                     MExited WDone [str "a"; str "b"; str "c"] in
  running s' = false
  /\ exists written, log s' = log s ++ written
                     /\ length written <= last_writes (writer_at s).
Proof.
  apply (at_most_one_write_after_stop [WriterGet; WriterTest; MainJoin]);
    reflexivity.
Defined.

Lemma drain_from_test l : forall s,
  items (log_queue s) = l ->
  running s = true -> main_at s = MPolling -> writer_at s = WTest ->
  exists sched s',
    run sched s = Some s'
    /\ forallb writer_action sched = true
    /\ log s' = log s ++ l
    /\ items (log_queue s') = []
    /\ produced s' = produced s
    /\ running s' = true /\ main_at s' = MPolling.
Proof.
  induction l as [|e l IH]; intros s Hi Hr Hm Hw.
  - exists [], s. rewrite app_nil_r. repeat split; assumption.
  - set (s1 := mkSystem true (log_queue s) (log s) MPolling WGet (produced s)).
    set (s2 := mkSystem true (mkQueue (maxsize (log_queue s)) l) (log s ++ [e])
                        MPolling WTest (produced s)).
    assert (H1 : step WriterTest s = Some s1).
    { unfold step. rewrite Hm, Hw, Hr. reflexivity. }
    assert (H2 : step WriterGet s1 = Some s2).
    { unfold step, get. simpl. rewrite Hi. reflexivity. }
    destruct (IH s2 eq_refl eq_refl eq_refl eq_refl)
      as (sched & s' & Hrun & Hall & Hlog & Hq & Hp & Hr' & Hm').
    exists (WriterTest :: WriterGet :: sched), s'.
    cbn [run]. rewrite H1. cbn [run]. rewrite H2, Hrun. cbn [forallb writer_action andb]. rewrite Hall.
    simpl in Hlog, Hp. rewrite <- app_assoc in Hlog.
    repeat split; assumption.
Qed.

(** While the monitor runs, the log thread, given the processor, writes
    everything that is queued, in order, and empties the queue: nothing is
    lost before the stop. *)
Theorem writer_can_drain s :
  running s = true -> main_at s = MPolling -> writer_at s <> WDone ->
  exists sched s',
    run sched s = Some s'
    /\ forallb writer_action sched = true
    /\ log s' = log s ++ items (log_queue s)
    /\ items (log_queue s') = []
    /\ produced s' = produced s.
Proof.
  intros Hr Hm Hw. destruct (writer_at s) eqn:Ew; [| |contradiction].
  - destruct (drain_from_test (items (log_queue s)) s eq_refl Hr Hm Ew)
      as (sched & s' & H1 & H2 & H3 & H4 & H5 & _).
    exists sched, s'. repeat split; assumption.
  - destruct (items (log_queue s)) as [|e l] eqn:Ei.
    + exists [], s. rewrite app_nil_r. repeat split; assumption.
    + set (s2 := mkSystem true (mkQueue (maxsize (log_queue s)) l) (log s ++ [e])
                          MPolling WTest (produced s)).
      assert (H2 : step WriterGet s = Some s2).
      { unfold step, get. rewrite Hm, Ew, Ei, Hr. reflexivity. }
      destruct (drain_from_test l s2 eq_refl eq_refl eq_refl eq_refl)
        as (sched & s' & Hrun & Hall & Hlog & Hq & Hp & _).
      exists (WriterGet :: sched), s'.
      cbn [run]. rewrite H2, Hrun. cbn [forallb writer_action andb]. rewrite Hall.
      simpl in Hlog, Hp. rewrite <- app_assoc in Hlog.
      repeat split; assumption.
Qed.

Lemma writer_can_drain_witness :
  let s := mkSystem true (mkQueue 0 [str "a"; str "b"]) [] MPolling WGet
                    [str "a"; str "b"] in
  exists sched s',
    run sched s = Some s'
    /\ forallb writer_action sched = true
    /\ log s' = log s ++ items (log_queue s)
    /\ items (log_queue s') = []
    /\ produced s' = produced s.
Proof.
  apply writer_can_drain; [reflexivity | reflexivity | discriminate].
Defined.

End ShutdownFacts.

(* ===================================================================== *)
(** * Encoding, and the serial link *)
(* ===================================================================== *)

Section CodecFacts.
Open Scope N_scope.

(** Division and remainder by constants, for [lia]. *)
Ltac Zify.zify_post_hook ::= Z.to_euclidean_division_equations.

Lemma byte_of_to_N n : n < 256 -> Byte.to_N (Link.byte_of n) = n.
Proof.
  intros H. unfold Link.byte_of. destruct (Byte.of_N n) as [b|] eqn:E.
  - apply Byte.to_of_N. exact E.
  - apply Byte.of_N_None_iff in E. lia.
Qed.

Ltac small_cases h :=
  destruct h as [|h]; [split; reflexivity|];
  do 6 (try destruct h as [h|h|]); try lia; split; reflexivity.

Lemma lead2 h : h < 32 -> N.lor 192 h = 192 + h /\ N.land (192 + h) 31 = h.
Proof. intros H. small_cases h. Qed.

Lemma lead3 h : h < 16 -> N.lor 224 h = 224 + h /\ N.land (224 + h) 15 = h.
Proof. intros H. small_cases h. Qed.

Lemma lead4 h : h < 8 -> N.lor 240 h = 240 + h /\ N.land (240 + h) 7 = h.
Proof. intros H. small_cases h. Qed.

Lemma trail l : l < 64 -> N.lor 128 l = 128 + l /\ N.land (128 + l) 63 = l.
Proof. intros H. small_cases l. Qed.

(** A number is its high bits shifted back, or-ed with its low bits. *)
Lemma recompose c k :
  N.lor (N.shiftl (N.shiftr c k) k) (N.land c (N.ones k)) = c.
Proof. rewrite <- N.ldiff_ones_r. apply N.lor_ldiff_and. Qed.

Lemma low6_of_low c k :
  6 <= k -> N.land (N.land c (N.ones k)) 63 = N.land c 63.
Proof.
  intros H. change 63 with (N.ones 6). apply N.bits_inj. intros n.
  rewrite !N.land_spec.
  destruct (N.ltb_spec n 6) as [Hn|Hn].
  - rewrite !N.ones_spec_low by lia. rewrite andb_true_r. reflexivity.
  - rewrite (N.ones_spec_high 6) by lia. rewrite !andb_false_r. reflexivity.
Qed.

Lemma shift_of_low c k j :
  j <= k -> N.shiftr (N.land c (N.ones k)) j = N.land (N.shiftr c j) (N.ones (k - j)).
Proof.
  intros H. apply N.bits_inj. intros n.
  rewrite N.shiftr_spec', !N.land_spec, N.shiftr_spec'.
  f_equal.
  destruct (N.ltb_spec n (k - j)) as [Hn|Hn].
  - rewrite !N.ones_spec_low by lia. reflexivity.
  - rewrite !N.ones_spec_high by lia. reflexivity.
Qed.

Lemma recompose3 c :
  N.lor (N.shiftl (N.shiftr c 12) 12)
        (N.lor (N.shiftl (N.land (N.shiftr c 6) 63) 6) (N.land c 63)) = c.
Proof.
  rewrite <- (recompose c 12) at 4. f_equal.
  rewrite <- (recompose (N.land c (N.ones 12)) 6).
  rewrite (shift_of_low c 12 6) by lia.
  change (N.ones (12 - 6)) with 63. change (N.ones 6) with 63.
  rewrite (low6_of_low c 12) by lia. reflexivity.
Qed.

Lemma recompose4 c :
  N.lor (N.shiftl (N.shiftr c 18) 18)
        (N.lor (N.shiftl (N.land (N.shiftr c 12) 63) 12)
               (N.lor (N.shiftl (N.land (N.shiftr c 6) 63) 6) (N.land c 63))) = c.
Proof.
  rewrite <- (recompose c 18) at 5. f_equal.
  rewrite <- (recompose3 (N.land c (N.ones 18))).
  rewrite (shift_of_low c 18 12), (shift_of_low c 18 6) by lia.
  change (N.ones (18 - 12)) with 63. change (N.ones (18 - 6)) with (N.ones 12).
  rewrite (low6_of_low (N.shiftr c 6) 12), (low6_of_low c 18) by lia.
  reflexivity.
Qed.

End CodecFacts.

Section RoundTrip.
Open Scope N_scope.

Ltac Zify.zify_post_hook ::= Z.to_euclidean_division_equations.

(** Settles the comparisons the decoder makes on bytes whose values are
    known to lie in given ranges. *)
Ltac settle :=
  unfold bad_second3, bad_second4, is_continuation;
  repeat match goal with
  | |- context [(?a <? ?b)] => destruct (N.ltb_spec a b); try lia
  | |- context [(?a <=? ?b)] => destruct (N.leb_spec a b); try lia
  | |- context [(?a =? ?b)] => destruct (N.eqb_spec a b); try lia
  end;
  cbn [negb andb orb].

(** The decoder accepts a well-formed sequence of one to four bytes and
    yields the code point its payload bits spell. *)
Lemma decode_one errors b rest :
  Byte.to_N b < 128 ->
  utf8_decode errors (b :: rest) = emit (Byte.to_N b) (utf8_decode errors rest).
Proof.
  intros H. rewrite utf8_decode_unfold. cbv zeta. settle; reflexivity.
Qed.

Lemma decode_two errors b1 b2 rest :
  194 <= Byte.to_N b1 < 224 ->
  128 <= Byte.to_N b2 < 192 ->
  utf8_decode errors (b1 :: b2 :: rest)
  = emit (cp2 (Byte.to_N b1) (Byte.to_N b2)) (utf8_decode errors rest).
Proof.
  intros H1 H2. rewrite utf8_decode_unfold. cbv zeta. settle; reflexivity.
Qed.

Lemma decode_three errors b1 b2 b3 rest :
  224 <= Byte.to_N b1 < 240 ->
  128 <= Byte.to_N b2 < 192 ->
  128 <= Byte.to_N b3 < 192 ->
  (Byte.to_N b1 = 224 -> 160 <= Byte.to_N b2) ->
  (Byte.to_N b1 = 237 -> Byte.to_N b2 < 160) ->
  utf8_decode errors (b1 :: b2 :: b3 :: rest)
  = emit (cp3 (Byte.to_N b1) (Byte.to_N b2) (Byte.to_N b3))
         (utf8_decode errors rest).
Proof.
  intros H1 H2 H3 H4 H5. rewrite utf8_decode_unfold. cbv zeta.
  settle; reflexivity.
Qed.

Lemma decode_four errors b1 b2 b3 b4 rest :
  240 <= Byte.to_N b1 < 245 ->
  128 <= Byte.to_N b2 < 192 ->
  128 <= Byte.to_N b3 < 192 ->
  128 <= Byte.to_N b4 < 192 ->
  (Byte.to_N b1 = 240 -> 144 <= Byte.to_N b2) ->
  (Byte.to_N b1 = 244 -> Byte.to_N b2 < 144) ->
  utf8_decode errors (b1 :: b2 :: b3 :: b4 :: rest)
  = emit (cp4 (Byte.to_N b1) (Byte.to_N b2) (Byte.to_N b3) (Byte.to_N b4))
         (utf8_decode errors rest).
Proof.
  intros H1 H2 H3 H4 H5 H6. rewrite utf8_decode_unfold. cbv zeta.
  settle; reflexivity.
Qed.

End RoundTrip.

Section EncodeFacts.
Open Scope N_scope.

Ltac Zify.zify_post_hook ::= Z.to_euclidean_division_equations.

Lemma shiftr_is_div c k : N.shiftr c k = c / 2 ^ k.
Proof. apply N.shiftr_div_pow2. Qed.

Lemma low6_is_mod c : N.land c 63 = c mod 64.
Proof. change 63 with (N.ones 6). rewrite N.land_ones. reflexivity. Qed.

(** What [encode] produces for one character, the decoder reads back as
    that character, whatever follows and whatever the error handler. *)
Ltac some_inv E bs :=
  apply (f_equal (fun o : option (list byte) =>
                    match o with Some x => x | None => [] end)) in E;
  cbv beta iota in E; subst bs.

Lemma encode_char_decodes c bs :
  Link.utf8_encode_char c = Some bs ->
  forall errors rest,
    utf8_decode errors (bs ++ rest) = emit c (utf8_decode errors rest).
Proof.
  unfold Link.utf8_encode_char.
  destruct (N.ltb_spec c 128) as [H1|H1].
  { intros E errors rest. some_inv E bs. cbn [app].
    rewrite decode_one; rewrite byte_of_to_N by lia; [reflexivity | lia]. }
  destruct (N.ltb_spec c 2048) as [H2|H2].
  { intros E errors rest. some_inv E bs. cbn [app].
    pose proof (shiftr_is_div c 6) as Eh. change (2 ^ 6) with 64 in Eh.
    pose proof (low6_is_mod c) as El.
    assert (Hh : N.shiftr c 6 < 32) by lia.
    assert (Hl : N.land c 63 < 64) by lia.
    destruct (lead2 _ Hh) as [L1 L2]. destruct (trail _ Hl) as [T1 T2].
    rewrite L1, T1.
    rewrite decode_two; rewrite ?byte_of_to_N by lia; try lia.
    unfold cp2. rewrite L2, T2.
    pose proof (recompose c 6) as R. change (N.ones 6) with 63 in R.
    rewrite R. reflexivity. }
  destruct (N.ltb_spec c 65536) as [H3|H3].
  { destruct (N.leb_spec 55296 c) as [H4|H4];
      [destruct (N.ltb_spec c 57344) as [H5|H5]|]; cbn [andb];
      try discriminate.
    all: intros E errors rest; some_inv E bs; cbn [app].
    all: pose proof (shiftr_is_div c 12) as Eh; change (2 ^ 12) with 4096 in Eh.
    all: pose proof (shiftr_is_div c 6) as Em; change (2 ^ 6) with 64 in Em.
    all: pose proof (low6_is_mod (N.shiftr c 6)) as Em'.
    all: pose proof (low6_is_mod c) as El.
    all: assert (Hh : N.shiftr c 12 < 16) by lia.
    all: assert (Hm : N.land (N.shiftr c 6) 63 < 64) by lia.
    all: assert (Hl : N.land c 63 < 64) by lia.
    all: destruct (lead3 _ Hh) as [L1 L2]; destruct (trail _ Hm) as [M1 M2];
         destruct (trail _ Hl) as [T1 T2].
    all: rewrite L1, M1, T1.
    all: rewrite decode_three; rewrite ?byte_of_to_N by lia; try lia.
    all: unfold cp3; rewrite L2, M2, T2; rewrite (recompose3 c); reflexivity. }
  destruct (N.ltb_spec c 1114112) as [H4|H4]; [|discriminate].
  intros E errors rest. some_inv E bs. cbn [app].
  pose proof (shiftr_is_div c 18) as Eh. change (2 ^ 18) with 262144 in Eh.
  pose proof (shiftr_is_div c 12) as En. change (2 ^ 12) with 4096 in En.
  pose proof (shiftr_is_div c 6) as Em. change (2 ^ 6) with 64 in Em.
  pose proof (low6_is_mod (N.shiftr c 12)) as En'.
  pose proof (low6_is_mod (N.shiftr c 6)) as Em'.
  pose proof (low6_is_mod c) as El.
  assert (Hh : N.shiftr c 18 < 8) by lia.
  assert (Hn : N.land (N.shiftr c 12) 63 < 64) by lia.
  assert (Hm : N.land (N.shiftr c 6) 63 < 64) by lia.
  assert (Hl : N.land c 63 < 64) by lia.
  destruct (lead4 _ Hh) as [L1 L2]. destruct (trail _ Hn) as [N1 N2].
  destruct (trail _ Hm) as [M1 M2]. destruct (trail _ Hl) as [T1 T2].
  rewrite L1, N1, M1, T1.
  rewrite decode_four; rewrite ?byte_of_to_N by lia; try lia.
  unfold cp4. rewrite L2, N2, M2, T2. rewrite (recompose4 c). reflexivity.
Qed.

Lemma encode_char_scalar c :
  (exists bs, Link.utf8_encode_char c = Some bs) <-> scalar c.
Proof.
  unfold Link.utf8_encode_char, scalar.
  destruct (N.ltb_spec c 128); [split; [lia | eauto]|].
  destruct (N.ltb_spec c 2048); [split; [lia | eauto]|].
  destruct (N.ltb_spec c 65536).
  - destruct (N.leb_spec 55296 c); [destruct (N.ltb_spec c 57344)|]; cbn [andb];
      split; try lia; eauto; intros [bs Hbs]; discriminate.
  - destruct (N.ltb_spec c 1114112); split; try lia; eauto.
    intros [bs Hbs]; discriminate.
Qed.

End EncodeFacts.

Lemma str_encode_decodes s : forall bs,
  Link.str_encode s = Some bs ->
  forall errors, utf8_decode errors bs = Ok s.
Proof.
  induction s as [|c s IH]; intros bs; simpl.
  - intros [= <-] errors. reflexivity.
  - destruct (Link.utf8_encode_char c) as [b|] eqn:Ec; [|discriminate].
    destruct (Link.str_encode s) as [bs'|] eqn:Es; [|discriminate].
    intros [= <-] errors.
    rewrite (encode_char_decodes c b Ec), (IH bs' eq_refl). reflexivity.
Qed.

Lemma str_encode_scalar s :
  (exists bs, Link.str_encode s = Some bs) <-> Forall scalar s.
Proof.
  induction s as [|c s IH]; simpl.
  - split; [constructor | eauto].
  - split.
    + intros [bs H].
      destruct (Link.utf8_encode_char c) as [b|] eqn:Ec; [|discriminate].
      destruct (Link.str_encode s) as [bs'|] eqn:Es; [|discriminate].
      constructor; [apply encode_char_scalar | apply IH]; eauto.
    + intros H. inversion H as [|? ? Hc Hs]; subst.
      apply encode_char_scalar in Hc as [b ->].
      apply IH in Hs as [bs' ->]. eauto.
Qed.

(** [encode] then [decode] is the identity: [s.encode('utf-8')] succeeds
    exactly on the strings without surrogates, and decoding its result,
    with [strict] or with [replace], gives the string back. *)
Theorem encode_decode_round_trip (s : text) :
  ((exists bs, Link.str_encode s = Some bs) <-> Forall scalar s)
  /\ (forall bs errors,
        Link.str_encode s = Some bs -> bytes_decode errors bs = Ok s).
Proof.
  split; [apply str_encode_scalar|].
  intros bs errors H. apply (str_encode_decodes s bs H).
Qed.

Lemma encode_decode_round_trip_witness :
  bytes_decode strict [x6f; x6b; xe2; x9c; x85; xf0; x9f; x98; x80]
  = Ok [111; 107; 9989; 128512]%N.
Proof.
  apply (proj2 (encode_decode_round_trip [111; 107; 9989; 128512]%N)).
  reflexivity.
Defined.

Section LinkFacts.
Import Link.

Lemma scalar_newline command :
  Forall scalar (command ++ [LF]) <-> Forall scalar command.
Proof.
  rewrite Forall_app. split; [tauto|]. intros H. split; [assumption|].
  constructor; [|constructor]. left. reflexivity.
Qed.

(** [send_command] succeeds exactly when the port is open, the command
    holds no surrogate and the write goes through; it then appends to the
    bytes sent a sequence that decodes, strictly, to the command followed
    by a newline, and leaves the port open; when it fails the connection
    is left as it was and nothing is sent. *)
Theorem send_command_writes (writes : bool) (command : text)
    (serial_conn : option Serial) :
  let '(ok, conn', _) := send_command writes command serial_conn in
  (ok = true <->
     (exists c, serial_conn = Some c /\ is_open c = true)
     /\ writes = true /\ Forall scalar command)
  /\ (ok = true ->
        exists c data,
          serial_conn = Some c
          /\ conn' = Some (mkSerial true (sent c ++ data))
          /\ bytes_decode strict data = Ok (command ++ [LF]))
  /\ (ok = false -> conn' = serial_conn).
Proof.
  unfold send_command.
  destruct serial_conn as [c|].
  2:{ repeat split; try discriminate; auto. intros [[c [H _]] _]. discriminate. }
  destruct (is_open c) eqn:Ho.
  2:{ repeat split; try discriminate; auto.
      intros [[c' [[= <-] H]] _]. congruence. }
  destruct (str_encode (command ++ [LF])) as [data|] eqn:Ee.
  2:{ repeat split; try discriminate; auto.
      intros (_ & _ & Hs). apply scalar_newline, str_encode_scalar in Hs as [bs Hbs].
      congruence. }
  destruct writes.
  - repeat split; auto.
    + exists c. auto.
    + apply scalar_newline, str_encode_scalar. eauto.
    + intros _. exists c, data. repeat split.
      apply (str_encode_decodes _ _ Ee).
    + discriminate.
  - repeat split; try discriminate; auto. intros (_ & H & _). discriminate.
Qed.

(** [disconnect] closes an open port and keeps what was sent; a second
    [disconnect] does and prints nothing; a command sent after it is
    refused and nothing is written. *)
Theorem after_disconnect (writes : bool) (command : text)
    (serial_conn : option Serial) :
  let closed := fst (disconnect serial_conn) in
  disconnect closed = (closed, [])
  /\ send_command writes command closed = (false, closed, [NotConnected])
  /\ option_map sent closed = option_map sent serial_conn
  /\ (forall c, closed = Some c -> is_open c = false).
Proof.
  destruct serial_conn as [[[|] data]|]; cbn; repeat split;
    intros c [= <-]; reflexivity.
Qed.

(** The [--command] branch never leaves the port open.  When the port
    opens, the command holds no surrogate and the write goes through, the
    bytes that went out decode to the command followed by a newline;
    otherwise nothing went out. *)
Theorem command_mode_wire (opens writes : bool) (command : text) :
  let conn := fst (command_mode opens writes command) in
  (forall c, conn = Some c -> is_open c = false)
  /\ (opens = true /\ writes = true /\ Forall scalar command ->
        bytes_decode strict (wire conn) = Ok (command ++ [LF]))
  /\ (~ (opens = true /\ writes = true /\ Forall scalar command) ->
        wire conn = []).
Proof.
  unfold command_mode, connect. destruct opens.
  2:{ cbn. split; [|split].
      - intros c H. discriminate.
      - intros (H & _). discriminate.
      - reflexivity. }
  unfold send_command. cbn [is_open sent].
  destruct (str_encode (command ++ [LF])) as [data|] eqn:Ee.
  - destruct writes; cbn.
    + repeat split.
      * intros c [= <-]. reflexivity.
      * intros _. apply (str_encode_decodes _ _ Ee).
      * intros H. exfalso. apply H. repeat split.
        apply scalar_newline, str_encode_scalar. eauto.
    + repeat split.
      * intros c [= <-]. reflexivity.
      * intros (_ & H & _). discriminate.
  - cbn. repeat split.
    + intros c [= <-]. reflexivity.
    + intros (_ & _ & Hs).
      apply scalar_newline, str_encode_scalar in Hs as [bs Hbs]. congruence.
Qed.

End LinkFacts.

Lemma terminated_single line :
  contains LF line = false -> terminated (line ++ [LF]) = ([line], []).
Proof.
  intros H.
  rewrite (terminated_split_some (line ++ [LF]) line [] (split1_at LF line [] H)).
  reflexivity.
Qed.

(** What [send_command] writes, the read loop shows: if the device echoes
    the bytes of a successfully sent command that is a clean line accepted
    by the filter, the monitor (timestamps off) prints exactly that
    command, once, and keeps nothing pending. *)
Theorem echo_is_shown now self (command : text) (c' : Link.Serial) notes :
  Link.send_command true command (Some (Link.mkSerial true []))
    = (true, Some c', notes) ->
  clean_line command ->
  should_display self command = true ->
  let st := feed now self false [Link.sent c'] initial in
  printed st = [command] /\ buffer st = [].
Proof.
  intros Hsend (Hne & Hlf & Hcr) Hpass. cbv zeta.
  unfold Link.send_command in Hsend. cbn [Link.is_open Link.sent] in Hsend.
  destruct (Link.str_encode (command ++ [LF])) as [data|] eqn:Ee; [|discriminate].
  injection Hsend as <- _. cbn [Link.sent app].
  rewrite feed_from_initial.
  destruct (process_lines_refines now self false
              (append (flat_map decoded [data]) initial)) as (Hp & _ & _ & Hb).
  cbv zeta in Hp, Hb. rewrite Hp, Hb. clear Hp Hb.
  assert (Hd : decoded data = command ++ [LF]).
  { unfold decoded, bytes_decode. rewrite (str_encode_decodes _ _ Ee replace).
    reflexivity. }
  cbn [flat_map]. rewrite app_nil_r, Hd. unfold append. cbn [buffer initial set_buffer app].
  unfold forwarded. rewrite (terminated_single command Hlf). cbn [fst snd map filter].
  rewrite (rstrip_fixed CR command Hcr), Hpass.
  destruct command as [|x command]; [contradiction|]. cbn. auto.
Qed.

Lemma echo_is_shown_witness :
  let st := feed sample_clock plain_monitor false
                 [bytes_of "status" ++ [x0a]] initial in
  printed st = [str "status"] /\ buffer st = [].
Proof.
  apply (echo_is_shown sample_clock plain_monitor (str "status")
           (Link.mkSerial true (bytes_of "status" ++ [x0a]))
           [Link.Sent (str "status")]).
  - reflexivity.
  - repeat split; try discriminate.
    intros t. do 7 (destruct t as [|? t]; try discriminate).
  - reflexivity.
Defined.

Section StopFacts.

Variable now : nat -> text.
Variable self : ESPMonitor.
Variable ts : bool.



End StopFacts.




Section RunningFacts.
Import Threads.



End RunningFacts.

(* ===================================================================== *)
(** * [dev.py]: commands run and exit status *)
(* ===================================================================== *)

Section DevFacts.
Import Dev.

Variable os : nat -> list string -> finished.

Lemma succeeds_true h cmd :
  succeeds os h cmd = true <-> os (length h) cmd = Exited 0.
Proof.
  unfold succeeds. destruct (os (length h) cmd) as [[|p|p]|];
    split; try discriminate; reflexivity.
Qed.

Lemma all_succeeded_nil h : all_succeeded os h [].
Proof. intros [|i] cmd H; discriminate. Qed.

Lemma all_succeeded_cons h cmd ran :
  all_succeeded os h (cmd :: ran) <->
  succeeds os h cmd = true /\ all_succeeded os (h ++ [cmd]) ran.
Proof.
  unfold all_succeeded. rewrite succeeds_true. split.
  - intros H. split.
    + rewrite <- (Nat.add_0_r (length h)). apply H. reflexivity.
    + intros i c Hc. rewrite length_app. simpl.
      replace (length h + 1 + i) with (length h + S i) by lia.
      apply H. exact Hc.
  - intros [H0 H] [|i] c Hc.
    + injection Hc as <-. rewrite Nat.add_0_r. exact H0.
    + specialize (H i c Hc). rewrite length_app in H. simpl in H.
      replace (length h + S i) with (length h + 1 + i) by lia. exact H.
Qed.

(** A run of steps that are all [run_command]s: the commands run are a
    prefix of the list, in order; the result is [True] when the whole list
    ran and every command exited with 0; otherwise the last command run is
    the first that failed. *)
Lemma run_steps_spec steps cmds :
  Forall2 (fun st c => snd st = run_command os c) steps cmds ->
  forall h,
    exists ran rest,
      cmds = ran ++ rest
      /\ snd (run_steps steps h) = h ++ ran
      /\ (fst (run_steps steps h) = true ->
            rest = [] /\ all_succeeded os h ran)
      /\ (fst (run_steps steps h) = false ->
            exists before cmd,
              ran = before ++ [cmd]
              /\ all_succeeded os h before
              /\ succeeds os (h ++ before) cmd = false).
Proof.
  induction 1 as [|[name f] c steps cmds Hf _ IH]; intros h.
  - exists [], []. cbn. rewrite app_nil_r. repeat split.
    + apply all_succeeded_nil.
    + discriminate.
  - cbn in Hf. subst f.
    assert (Erun : run_steps ((name, run_command os c) :: steps) h
                   = if succeeds os h c then run_steps steps (h ++ [c])
                     else (false, h ++ [c])) by reflexivity.
    rewrite Erun. clear Erun.
    destruct (succeeds os h c) eqn:Hs.
    + destruct (IH (h ++ [c])) as (ran & rest & -> & Hh & Ht & Hfalse).
      exists (c :: ran), rest. rewrite Hh, <- app_assoc.
      split; [reflexivity|]. split; [reflexivity|]. split.
      * intros E. destruct (Ht E) as [-> Hall]. split; [reflexivity|].
        apply all_succeeded_cons. split; assumption.
      * intros E. destruct (Hfalse E) as (before & cmd & -> & Hb & Hc).
        exists (c :: before), cmd. rewrite <- app_assoc in Hc.
        split; [reflexivity|]. split; [|exact Hc].
        apply all_succeeded_cons. split; assumption.
    + exists [c], cmds. cbn [fst snd].
      split; [reflexivity|]. split; [reflexivity|]. split; [discriminate|].
      intros _. exists [], c. rewrite app_nil_r.
      split; [reflexivity|]. split; [apply all_succeeded_nil | assumption].
Qed.

Lemma failed_not_all h before cmd :
  all_succeeded os h (before ++ [cmd]) ->
  succeeds os (h ++ before) cmd = false -> False.
Proof.
  intros Hall Hfail. unfold all_succeeded in Hall.
  specialize (Hall (length before) cmd).
  rewrite nth_error_app2, Nat.sub_diag in Hall by lia.
  specialize (Hall eq_refl). rewrite <- length_app in Hall.
  apply succeeds_true in Hall. congruence.
Qed.

Lemma deploy_steps env :
  Forall2 (fun st c => snd st = run_command os c)
    [("Clean", clean_project os); ("Build", build_project os env);
     ("Upload", upload_project os env); ("Monitor", monitor_device os)]%string
    (deploy_commands env).
Proof. repeat constructor. Qed.

(** [full_deploy] runs clean, build, upload, monitor in this order and
    stops at the first command that does not exit with 0: the commands run
    are a prefix of the four, a command is only started when all the
    earlier ones succeeded, and the result is [True] exactly when all four
    ran and succeeded. *)
Theorem full_deploy_stops_at_first_failure env h :
  exists ran rest,
    deploy_commands env = ran ++ rest
    /\ snd (full_deploy os env h) = h ++ ran
    /\ (fst (full_deploy os env h) = true <->
          rest = [] /\ all_succeeded os h ran)
    /\ (fst (full_deploy os env h) = false ->
          exists before cmd,
            ran = before ++ [cmd]
            /\ all_succeeded os h before
            /\ succeeds os (h ++ before) cmd = false).
Proof.
  destruct (run_steps_spec _ _ (deploy_steps env) h)
    as (ran & rest & Hc & Hh & Ht & Hf).
  exists ran, rest. fold (full_deploy os env h) in Hh, Ht, Hf.
  repeat split; try assumption; try (apply Ht; assumption).
  intros [-> Hall].
  destruct (fst (full_deploy os env h)) eqn:E; [reflexivity|].
  destruct (Hf eq_refl) as (before & cmd & -> & _ & Hfail).
  exfalso. exact (failed_not_all h before cmd Hall Hfail).
Qed.


End DevFacts.

(* ===================================================================== *)
(** * [ota_update.py]: the update log *)
(* ===================================================================== *)

Section OtaFacts.
Import Ota.

Variable entry : Type.



Lemma keep_last_all n (l : list entry) :
  length l <= n -> keep_last entry n l = l.
Proof.
  intros H. unfold keep_last. replace (length l - n) with 0 by lia. reflexivity.
Qed.

Lemma skipn_past (f y : list entry) x :
  skipn (length f + x) (f ++ y) = skipn x y.
Proof. induction f as [|a f IH]; [reflexivity | exact IH]. Qed.

(** Trimming before appending does not change what is kept in the end. *)
Lemma keep_last_app n (l m : list entry) :
  keep_last entry n (keep_last entry n l ++ m) = keep_last entry n (l ++ m).
Proof.
  destruct (Nat.le_gt_cases (length l) n) as [H|H].
  - rewrite (keep_last_all n l H). reflexivity.
  - unfold keep_last.
    rewrite !length_app, length_skipn.
    replace (length l - (length l - n) + length m - n) with (length m) by lia.
    replace (length l + length m - n) with ((length l - n) + length m) by lia.
    rewrite <- (firstn_skipn (length l - n) l) at 4.
    rewrite <- app_assoc.
    assert (Hf : length (firstn (length l - n) l) = length l - n)
      by (rewrite length_firstn; lia).
    rewrite <- Hf at 2. rewrite skipn_past. reflexivity.
Qed.



Lemma updates_from_list (entries : list entry) : forall l,
  updates entry (Entries entry l) entries
  = Some (Entries entry (match entries with
                         | [] => l
                         | _ => keep_last entry 50 (l ++ entries)
                         end)).
Proof.
  induction entries as [|e rest IH]; intros l; [reflexivity|].
  cbn [updates create_update_log].
  rewrite IH. destruct rest as [|e' rest]; [reflexivity|].
  rewrite keep_last_app, <- app_assoc. reflexivity.
Qed.

(** Update after update, each reading what the previous one wrote, the
    file holds the last 50 entries of the whole history: what it held at
    the start followed by every entry logged since. *)
Theorem updates_keep_latest (file : stored entry) (entries : list entry) :
  file <> NotAList entry ->
  entries <> [] ->
  updates entry file entries
  = Some (Entries entry (keep_last entry 50 (previous entry file ++ entries))).
Proof.
  intros Hf He. destruct entries as [|e rest]; [contradiction|].
  assert (E : updates entry file (e :: rest)
              = updates entry (Entries entry (keep_last entry 50 (previous entry file ++ [e]))) rest).
  { destruct file; try contradiction; reflexivity. }
  rewrite E, updates_from_list.
  destruct rest as [|e' rest]; [reflexivity|].
  rewrite keep_last_app, <- app_assoc. reflexivity.
Qed.

End OtaFacts.


Lemma updates_keep_latest_witness :
  Ota.updates nat (Ota.NoFile nat) [1; 2; 3]
  = Some (Ota.Entries nat (Ota.keep_last nat 50 (previous nat (Ota.NoFile nat) ++ [1; 2; 3]))).
Proof. apply updates_keep_latest; discriminate. Defined.

